(** * Opti-LogistiX: damage scenarios, demo graph and routing

    A shallow embedding of the dashboard client
    ([src/dashboard/js/app.js]), of the scenario generator and of the
    routing environment of [docs/MVP_ROADMAP.md], together with the
    properties the specification states about them.

    Conventions of the embedding.
    - A JavaScript or Python number is an exact rational ([Q]); rounding
      of IEEE doubles is not modelled.
    - [Math.random] and [random.random] read an explicit generator state:
      a sequence of draws and a position in it.
    - The in-place mutation of [state.graphData.edges] is state passing:
      every operation returns the new list of edges.
    - A plain object used as a map is the finite map of its own
      properties together with the names it inherits from
      [Object.prototype].
    - A [try] block is followed statement by statement: a throw after a
      mutation runs the [catch] branch on the mutated state. *)

From Stdlib Require Import QArith Qround Qabs Lqa Lia Ascii String.
From stdpp Require Import gmap strings list fin_maps pretty.

Open Scope Q_scope.

(** ** The random number generator *)

Module Random.

(** The generator: the sequence of values it will return, and how many
    were consumed so far. *)
Record RNG := { draws : nat -> Q; pos : nat }.

(** [Math.random()] returns a value in [[0, 1)]. *)
Definition in_unit_interval (g : RNG) : Prop :=
  forall n, 0 <= draws g n < 1.

(** Computations that draw random numbers. *)
Definition M (A : Type) : Type := RNG -> A * RNG.

Definition ret {A} (a : A) : M A := fun g => (a, g).

Definition bind {A B} (m : M A) (k : A -> M B) : M B :=
  fun g => let (a, g') := m g in k a g'.

Definition Math_random : M Q :=
  fun g => (draws g (pos g), {| draws := draws g; pos := S (pos g) |}).

(** [arr.forEach(f)], where [f] mutates the element it is given. *)
Fixpoint forEach {A B} (f : A -> M B) (l : list A) : M (list B) :=
  match l with
  | [] => ret []
  | x :: l' => bind (f x) (fun y => bind (forEach f l') (fun ys => ret (y :: ys)))
  end.

(** A generator that returns [q] for ever. *)
Definition constant (q : Q) : RNG := {| draws := fun _ => q; pos := 0 |}.

(** A generator that cycles through a list of values. *)
Definition cycle (l : list Q) : RNG :=
  {| draws := fun n => nth (n mod length l) l 0; pos := 0 |}.

End Random.
Import Random.

Notation "'let*' x ':=' m 'in' k" := (bind m (fun x => k))
  (at level 10, x name, m at level 100, k at level 200).

(** ** Data model of the dashboard *)

Record LatLon := { lat : Q; lon : Q }.

(** An identifier sent by the server: a string or a number. *)
Inductive EdgeId :=
| IdStr (s : string)
| IdNum (n : Z).

(** An element of [state.graphData.edges]. The demo edges carry no [id]. *)
Record Edge := {
  id : option EdgeId;
  from : LatLon;
  to : LatLon;
  damage : Q
}.

Definition set_damage (e : Edge) (d : Q) : Edge :=
  {| id := id e; from := from e; to := to e; damage := d |}.

(** The answer of [POST /scenarios/preset/<name>]. *)
Record ScenarioResult := { magnitude : Q }.

(** The part of the page the scenario functions write to. *)
Record AppState := {
  edges : list Edge;
  currentScenario : option ScenarioResult;
  damagedRoads : Z;
  damagedBridges : Z
}.

(** The [state] constant: no edges, no scenario; the page shows no
    damaged road. *)
Definition initialState : AppState :=
  {| edges := []; currentScenario := None; damagedRoads := 0; damagedBridges := 0 |}.

(** ** [loadDemoData]: the fallback 5 x 5 grid *)

Definition gridNode (i j : nat) : LatLon :=
  {| lat := 41.0 + inject_Z (Z.of_nat i) * 0.01;
     lon := 29.0 + inject_Z (Z.of_nat j) * 0.01 |}.

(** The body of the inner loop at indices [i], [j]. The sums are those of
    the code; in doubles [lat1 + 0.01] need not be the [lat1] of the
    next row (nor [lon1 + 0.01] the [lon1] of the next column), and the
    statements about the grid do not identify them. *)
Definition demoEdgesAt (i j : nat) : list Edge :=
  let lat1 := 41.0 + inject_Z (Z.of_nat i) * 0.01 in
  let lon1 := 29.0 + inject_Z (Z.of_nat j) * 0.01 in
  (if (j <? 4)%nat
   then [ {| id := None;
             from := {| lat := lat1; lon := lon1 |};
             to := {| lat := lat1; lon := lon1 + 0.01 |};
             damage := 0 |} ]
   else []) ++
  (if (i <? 4)%nat
   then [ {| id := None;
             from := {| lat := lat1; lon := lon1 |};
             to := {| lat := lat1 + 0.01; lon := lon1 |};
             damage := 0 |} ]
   else []).

Definition demoEdges : list Edge :=
  flat_map (fun i => flat_map (fun j => demoEdgesAt i j) (seq 0 5)) (seq 0 5).

Definition loadDemoData (s : AppState) : AppState :=
  {| edges := demoEdges;
     currentScenario := currentScenario s;
     damagedRoads := damagedRoads s;
     damagedBridges := damagedBridges s |}.

Definition same_point (p q : LatLon) : bool :=
  Qeq_bool (lat p) (lat q) && Qeq_bool (lon p) (lon q).

(** No two points of the list are the same. *)
Fixpoint distinctPoints (l : list LatLon) : bool :=
  match l with
  | [] => true
  | p :: rest => forallb (fun q => negb (same_point p q)) rest && distinctPoints rest
  end.

(** An edge along a row of the grid (the latitude does not change). *)
Definition horizontal (e : Edge) : bool :=
  Qeq_bool (lat (from e)) (lat (to e)) && negb (Qeq_bool (lon (from e)) (lon (to e))).

(** An edge along a column of the grid (the longitude does not change). *)
Definition vertical (e : Edge) : bool :=
  Qeq_bool (lon (from e)) (lon (to e)) && negb (Qeq_bool (lat (from e)) (lat (to e))).

(** The adjacent pairs of nodes of an [n] x [n] grid, as index pairs. *)
Definition rowPairs (n : nat) : list (nat * nat) := list_prod (seq 0 n) (seq 0 (n - 1)).
Definition columnPairs (n : nat) : list (nat * nat) := list_prod (seq 0 (n - 1)) (seq 0 n).

(** ** [clearScenario] *)

Definition clearScenario (s : AppState) : AppState :=
  {| edges := map (fun e => set_damage e 0) (edges s);
     currentScenario := None;
     damagedRoads := 0;
     damagedBridges := 0 |}.

(** ** [applyDemoScenario] and [applyRandomDamage] *)

Definition damageRate (scenario : string) : Q :=
  if String.eqb scenario "hafif" then 0.15
  else if String.eqb scenario "orta" then 0.35
  else 0.6.

(** The callback of [forEach] in [applyDemoScenario]: the new edge, and
    whether [damagedCount] was incremented. *)
Definition demoDamage (rate : Q) (edge : Edge) : M (Edge * bool) :=
  let* r := Math_random in
  if Qlt_le_dec r rate
  then let* d := Math_random in ret (set_damage edge (d * 0.5 + 0.3), true)
  else let* d := Math_random in ret (set_damage edge (d * 0.2), false).

Definition count_true (l : list bool) : nat := length (List.filter (fun b => b) l).

Definition applyDemoScenario (scenario : string) (s : AppState) : M AppState :=
  let damageRate := damageRate scenario in
  let* res := forEach (demoDamage damageRate) (edges s) in
  let damagedCount := Z.of_nat (count_true (map snd res)) in
  ret {| edges := map fst res;
         currentScenario := currentScenario s;
         damagedRoads := damagedCount;
         damagedBridges := damagedCount / 10 |}.

Definition randomDamage (edge : Edge) : M Edge :=
  let* d := Math_random in ret (set_damage edge (d * 0.6)).

Definition applyRandomDamage (s : AppState) : M AppState :=
  let* es := forEach randomDamage (edges s) in
  ret {| edges := es;
         currentScenario := currentScenario s;
         damagedRoads := damagedRoads s;
         damagedBridges := damagedBridges s |}.

(** The magnitudes of the preset scenarios (roadmap, section 2.2: hafif
    5.5 Mw, orta 6.5 Mw, siddetli 7.2 Mw). *)
Definition presetMagnitude (scenario : string) : option Q :=
  if String.eqb scenario "hafif" then Some 5.5
  else if String.eqb scenario "orta" then Some 6.5
  else if String.eqb scenario "siddetli" then Some 7.2
  else None.

(** An edge counts as damaged from a score of 0.3 on. *)
Definition isDamaged (e : Edge) : bool :=
  if Qlt_le_dec (damage e) 0.3 then false else true.

Definition damagedEdges (s : AppState) : nat :=
  length (List.filter isDamaged (edges s)).

Definition damagedFraction (s : AppState) : Q :=
  inject_Z (Z.of_nat (damagedEdges s)) / inject_Z (Z.of_nat (length (edges s))).

(** ** [loadDamageMap] *)

Record DamageEntry := { entry_id : EdgeId; entry_damage : Q }.

(** An element of [data.zones]; [zone_center] is [None] for a zone that
    has no [center]. *)
Record Zone := {
  zone_id : string;
  zone_center : option LatLon;
  zone_radius_m : Q;
  zone_score : Q;
  zone_level : string
}.

(** [data.stats] *)
Record Stats := { damaged_edges : Z; critical_edges : Z }.

(** The answer of [GET /damage-map]: [data.edges], [data.zones] and
    [data.stats]; the last two are [None] when the answer lacks them. *)
Record DamageMapData := {
  data_edges : list DamageEntry;
  data_zones : option (list Zone);
  data_stats : option Stats
}.

(** The property key an identifier becomes in [damageMap[id]]. *)
Definition propertyKey (i : EdgeId) : string :=
  match i with
  | IdStr s => s
  | IdNum n => pretty n
  end.

(** JavaScript truthiness of [edge.id]: the empty string and [0] are falsy. *)
Definition truthy (i : EdgeId) : bool :=
  match i with
  | IdStr s => negb (String.eqb s EmptyString)
  | IdNum n => negb (n =? 0)%Z
  end.

(** *** The object [damageMap]

    [damageMap] starts as the literal [{}]: an object without own
    properties whose prototype is [Object.prototype]. The map below holds
    its own properties; the keys of [objectPrototypeKeys] are the
    properties it inherits. *)
Definition objectPrototypeKeys : list string :=
  [ "constructor"; "__defineGetter__"; "__defineSetter__"; "hasOwnProperty";
    "__lookupGetter__"; "__lookupSetter__"; "isPrototypeOf";
    "propertyIsEnumerable"; "toString"; "valueOf"; "__proto__"; "toLocaleString" ].

Definition inheritedKey (k : string) : bool :=
  existsb (String.eqb k) objectPrototypeKeys.

(** [damageMap[k] = v] for a number [v]: the key [__proto__] is the
    setter of [Object.prototype], which ignores a number and stores
    nothing; any other key becomes an own property (shadowing an
    inherited one). *)
Definition storeProperty (m : gmap string Q) (k : string) (v : Q) : gmap string Q :=
  if String.eqb k "__proto__" then m else <[k := v]> m.

(** What [damageMap[k]] evaluates to: the number of an own property, a
    member of [Object.prototype] (a function, or the prototype itself
    for [__proto__]; truthy and not a number), or [undefined]. *)
Inductive Property :=
| Own (v : Q)
| Inherited
| Undefined.

Definition readProperty (m : gmap string Q) (k : string) : Property :=
  match m !! k with
  | Some v => Own v
  | None => if inheritedKey k then Inherited else Undefined
  end.

(** [data.edges.forEach(e => { damageMap[e.id] = e.damage; })] *)
Definition buildDamageMap (entries : list DamageEntry) : gmap string Q :=
  fold_left (fun m e => storeProperty m (propertyKey (entry_id e)) (entry_damage e)) entries ∅.

(** *** [drawDamageZones] *)

Record Circle := { circle_center : LatLon; circle_radius : Q; circle_color : string }.

Definition zoneColor (score : Q) : string :=
  if Qlt_le_dec 0.7 score then "#ef4444"
  else if Qlt_le_dec 0.4 score then "#f59e0b"
  else "#10b981".

(** The circles [drawDamageZones] adds; [None] when it throws, as reading
    [zone.center.lat] does for a zone without a [center]. *)
Fixpoint drawDamageZones (zones : list Zone) : option (list Circle) :=
  match zones with
  | [] => Some []
  | zone :: rest =>
      match zone_center zone with
      | None => None
      | Some c =>
          match drawDamageZones rest with
          | Some circles =>
              Some ({| circle_center := c;
                       circle_radius := zone_radius_m zone;
                       circle_color := zoneColor (zone_score zone) |} :: circles)
          | None => None
          end
      end
  end.

(** The statements of the [try] block of [loadDamageMap] that follow the
    update of the edges: [drawDamageZones(data.zones)], then the two
    counters read from [data.stats]. [None] when one of them throws:
    [data.zones] is missing, a zone has no centre, or [data.stats] is
    missing. *)
Definition zonesAndStats (data : DamageMapData) : option Stats :=
  match data_zones data with
  | None => None
  | Some zones =>
      match drawDamageZones zones with
      | None => None
      | Some _ => data_stats data
      end
  end.

(** The edges, when every one of them holds a number. *)
Fixpoint allNumbers (l : list (option Edge)) : option (list Edge) :=
  match l with
  | [] => Some []
  | None :: _ => None
  | Some e :: rest =>
      match allNumbers rest with
      | Some es => Some (e :: es)
      | None => None
      end
  end.


Section NumberFormat.

(** [Number.prototype.toString], as used by the template literal. *)
Variable Number_toString : Q -> string.

Definition coordinateKey (edge : Edge) : string :=
  Number_toString (lat (from edge)) +:+ "_" +:+ Number_toString (lat (to edge)).

(** [edge.id || `${edge.from.lat}_${edge.to.lat}`] *)
Definition edgeKey (edge : Edge) : string :=
  match id edge with
  | Some i => if truthy i then propertyKey i else coordinateKey edge
  | None => coordinateKey edge
  end.

(** [edge.damage = damageMap[id] || Math.random() * 0.5]: the right
    operand is evaluated only when the left one is [undefined] or [0].
    An inherited member of [Object.prototype] is truthy, so it is what
    [edge.damage] becomes: the result is [None], the edge then holds no
    number. *)
Definition loadedDamage (damageMap : gmap string Q) (edge : Edge) : M (option Edge) :=
  match readProperty damageMap (edgeKey edge) with
  | Own d =>
      if Qeq_bool d 0
      then let* r := Math_random in ret (Some (set_damage edge (r * 0.5)))
      else ret (Some (set_damage edge d))
  | Inherited => ret None
  | Undefined => let* r := Math_random in ret (Some (set_damage edge (r * 0.5)))
  end.

(** [response] is [None] when the request fails, is not [ok] or has no
    list [data.edges]: the [catch] branch then calls [applyRandomDamage].
    The [catch] branch also runs when a statement after the update of the
    edges throws; [applyRandomDamage] then overwrites the damage of every
    edge, whatever the update wrote, and the counters are not touched.
    Without a throw the result is [None] when an edge received a member
    of [Object.prototype] in place of a number. *)
Definition loadDamageMap (response : option DamageMapData) (s : AppState)
    : M (option AppState) :=
  match response with
  | Some data =>
      let damageMap := buildDamageMap (data_edges data) in
      let* es := forEach (loadedDamage damageMap) (edges s) in
      match zonesAndStats data with
      | Some stats =>
          ret (match allNumbers es with
               | Some es' =>
                   Some {| edges := es';
                           currentScenario := currentScenario s;
                           damagedRoads := damaged_edges stats;
                           damagedBridges := critical_edges stats |}
               | None => None
               end)
      | None => let* s' := applyRandomDamage s in ret (Some s')
      end
  | None => let* s' := applyRandomDamage s in ret (Some s')
  end.

(** What the server answers to [POST /scenarios/preset/<name>]: a
    failure, or the scenario followed by the answer of
    [GET /damage-map]. *)
Inductive PresetReply :=
| PresetFailed
| PresetOk (result : ScenarioResult) (damageMap : option DamageMapData).


(** [handleScenarioSelect]: ['none'] clears; a failed activation falls
    back on the demo scenario. *)
Definition handleScenarioSelect (scenario : string) (reply : PresetReply)
    (s : AppState) : M (option AppState) :=
  if String.eqb scenario "none" then ret (Some (clearScenario s))
  else
    match reply with
    | PresetOk result response =>
        loadDamageMap response
          {| edges := edges s;
             currentScenario := Some result;
             damagedRoads := damagedRoads s;
             damagedBridges := damagedBridges s |}
    | PresetFailed => let* s' := applyDemoScenario scenario s in ret (Some s')
    end.

(** A session: the scenario buttons pressed, one after the other; [None]
    once an edge holds no number. *)
Fixpoint selectAll (presses : list (string * PresetReply)) (s : AppState)
    : M (option AppState) :=
  match presses with
  | [] => ret (Some s)
  | (scenario, reply) :: rest =>
      let* r := handleScenarioSelect scenario reply s in
      match r with
      | Some s' => selectAll rest s'
      | None => ret None
      end
  end.

(** No edge of [s] is looked up under a key of [Object.prototype]. *)
Definition plainKeys (s : AppState) : bool :=
  forallb (fun e => negb (inheritedKey (edgeKey e))) (edges s).

End NumberFormat.

(** A decimal rendering of a rational with a finite expansion, as
    [Number.prototype.toString] gives for short decimals. *)
Fixpoint fractionDigits (fuel : nat) (num den : Z) : string :=
  match fuel with
  | O => EmptyString
  | S fuel' =>
      if (num =? 0)%Z then EmptyString
      else pretty (num * 10 / den)%Z +:+ fractionDigits fuel' (num * 10 mod den)%Z den
  end.

Definition decimalString (q : Q) : string :=
  let n := Z.abs (Qnum q) in
  let d := Z.pos (Qden q) in
  let frac := fractionDigits 17 (n mod d)%Z d in
  (if (Qnum q <? 0)%Z then "-" else EmptyString) +:+ pretty (n / d)%Z +:+
  (if String.eqb frac EmptyString then EmptyString else "." +:+ frac).

(** ** [createDemoRoute] *)

Record Route := {
  path_coords : list LatLon;
  estimated_time : Q;
  distance_km : Q;
  risk_score : Q;
  method : string;
  is_optimal : bool
}.

Definition steps : nat := 5.

(** The body of the loop at index [i]; [lat] is evaluated before [lon]. *)
Definition demoPoint (startLat startLon endLat endLon : Q) (i : nat) : M LatLon :=
  let t := inject_Z (Z.of_nat i) / inject_Z (Z.of_nat steps) in
  let* r1 := Math_random in
  let* r2 := Math_random in
  ret {| lat := startLat + (endLat - startLat) * t + (r1 - 0.5) * 0.002;
         lon := startLon + (endLon - startLon) * t + (r2 - 0.5) * 0.002 |}.

Definition createDemoRoute (startLat startLon endLat endLon : Q) : M Route :=
  let* path_coords := forEach (demoPoint startLat startLon endLat endLon) (seq 0 (steps + 1)) in
  ret {| path_coords := path_coords;
         estimated_time := 12.5;
         distance_km := 2.3;
         risk_score := 0.25;
         method := "astar";
         is_optimal := true |}.

(** The point of the straight line from start to end at step [i]. *)
Definition interpolate (a b : Q) (i : nat) : Q :=
  a + (b - a) * (inject_Z (Z.of_nat i) / inject_Z (Z.of_nat steps)).

(** ** [calculateRoute]: reading the two input fields *)

(** What [parseFloat] returns. *)
Inductive Number :=
| NaN
| Infinity (negative : bool)
| Finite (q : Q).

(** White space of the ASCII range: tab, line feed, vertical tab, form
    feed, carriage return and space. The white space JavaScript knows
    beyond ASCII (no-break space, line separator, ...) is not covered. *)
Definition isWhiteSpace (c : ascii) : bool :=
  let n := nat_of_ascii c in
  ((9 <=? n) && (n <=? 13) || (n =? 32))%nat.

Definition isDigit (c : ascii) : bool :=
  let n := nat_of_ascii c in
  ((48 <=? n) && (n <=? 57))%nat.

Definition digitValue (c : ascii) : Z := Z.of_nat (nat_of_ascii c - 48).

Fixpoint trimStart (s : string) : string :=
  match s with
  | String c r => if isWhiteSpace c then trimStart r else s
  | EmptyString => EmptyString
  end.

Definition trim (s : string) : string :=
  String.rev (trimStart (String.rev (trimStart s))).

(** [s.split(sep)] for a one-character separator: never an empty array. *)
Fixpoint split (sep : ascii) (s : string) : list string :=
  match s with
  | EmptyString => [EmptyString]
  | String c r =>
      if Ascii.eqb c sep then EmptyString :: split sep r
      else match split sep r with
           | h :: t => String c h :: t
           | [] => [String c EmptyString]
           end
  end.

(** The longest run of decimal digits at the head of [s], and the rest. *)
Fixpoint spanDigits (s : string) : list Z * string :=
  match s with
  | String c r =>
      if isDigit c
      then let (ds, rest) := spanDigits r in (digitValue c :: ds, rest)
      else ([], s)
  | EmptyString => ([], EmptyString)
  end.

Definition digitsValue (ds : list Z) : Z :=
  fold_left (fun acc d => acc * 10 + d)%Z ds 0%Z.

(** The value of an optional [ExponentPart] at the head of [s]: an [e] or
    [E] that no digit follows is not part of the literal. *)
Definition exponentPart (s : string) : Z :=
  match s with
  | String c r =>
      if Ascii.eqb c "e" || Ascii.eqb c "E"
      then match r with
           | String "+" r' => digitsValue (fst (spanDigits r'))
           | String "-" r' => - digitsValue (fst (spanDigits r'))
           | _ => digitsValue (fst (spanDigits r))
           end
      else 0
  | EmptyString => 0
  end%Z.

(** The longest prefix of [s] that is a [StrUnsignedDecimalLiteral]; its
    value is the exact decimal, where JavaScript takes the nearest
    double (and [Infinity] on overflow). *)
Definition unsignedDecimal (s : string) : option Number :=
  if String.prefix "Infinity" s then Some (Infinity false)
  else
    let (ip, r1) := spanDigits s in
    match r1 with
    | String "." r2 =>
        let (fp, r3) := spanDigits r2 in
        match ip, fp with
        | [], [] => None
        | _, _ =>
            Some (Finite (inject_Z (digitsValue (ip ++ fp))
                          / inject_Z (10 ^ Z.of_nat (length fp))
                          * 10 ^ exponentPart r3))
        end
    | _ =>
        match ip with
        | [] => None
        | _ => Some (Finite (inject_Z (digitsValue ip) * 10 ^ exponentPart r1))
        end
    end.

Definition negate (n : Number) : Number :=
  match n with
  | NaN => NaN
  | Infinity b => Infinity (negb b)
  | Finite q => Finite (- q)
  end.

Definition parseFloat (s : string) : Number :=
  let t := trimStart s in
  let r :=
    match t with
    | String "+" u => unsignedDecimal u
    | String "-" u => negate <$> unsignedDecimal u
    | _ => unsignedDecimal t
    end in
  default NaN r.

(** [{ lat, lon }] after [const [lat, lon] = parts]: a missing element is
    [undefined], here [None]. *)
Record Coordinate := { coord_lat : option Number; coord_lon : option Number }.

Definition parseCoordinate (input : string) : Coordinate :=
  let parts := map (fun s => parseFloat (trim s)) (split "," input) in
  {| coord_lat := parts !! 0%nat; coord_lon := parts !! 1%nat |}.

(** The object given to [JSON.stringify] for [POST /route]. *)
Record RouteRequest := {
  request_start : Coordinate;
  request_end : Coordinate;
  request_vehicle_type : string;
  request_urgency : Q;
  request_method : string
}.

(** The request [calculateRoute] sends: [None] when it returns after the
    toast and sends nothing. *)
Definition calculateRoute (startInput endInput : string) : option RouteRequest :=
  if String.eqb startInput EmptyString || String.eqb endInput EmptyString then None
  else Some {| request_start := parseCoordinate startInput;
               request_end := parseCoordinate endInput;
               request_vehicle_type := "ambulance";
               request_urgency := 0.8;
               request_method := "astar" |}.

(** ** The roadmap's scenario generator and routing environment
       ([docs/MVP_ROADMAP.md]) *)

Module Roadmap.

Definition Node := Z.

(** The attributes of an edge that the code reads. *)
Record EdgeData := { edge_length : Q; bridge : bool }.

(** A directed graph as [networkx] stores it: for every node, in
    insertion order, its successors with the data of the edge. *)
Definition Graph := list (Node * list (Node * EdgeData)).

Fixpoint assoc {A} (k : Node) (l : list (Node * A)) : option A :=
  match l with
  | [] => None
  | (k', a) :: l' => if (k =? k')%Z then Some a else assoc k l'
  end.

(** [graph.edges(data=True)] *)
Definition graph_edges (g : Graph) : list (Node * Node * EdgeData) :=
  flat_map (fun '(u, succs) => map (fun '(v, data) => (u, v, data)) succs) g.

(** [random.uniform(a, b)] is [a + (b - a) * random.random()]. *)
Definition random_uniform (a b : Q) : M Q :=
  let* r := Math_random in ret (a + (b - a) * r).

Definition base_prob (severity : Q) (data : EdgeData) : Q :=
  let base_prob := severity / 10 in
  if bridge data then base_prob * 1.5 else base_prob.

(** The body of the loop of [generate_scenario]: the entry appended to
    [damaged_edges], if any. *)
Definition scenario_entry (severity : Q) (e : Node * Node * EdgeData)
  : M (option (Node * Node * Q)) :=
  let '(u, v, data) := e in
  let* r := Math_random in
  if Qlt_le_dec r (base_prob severity data)
  then let* damage_level := random_uniform 0.3 1.0 in ret (Some (u, v, damage_level))
  else ret None.

Definition generate_scenario (graph : Graph) (severity : Q) : M (list (Node * Node * Q)) :=
  let* entries := forEach (scenario_entry severity) (graph_edges graph) in
  ret (omap (fun x => x) entries).

(** [DisasterRoutingEnv]: the fields [step] and [reset] use. *)
Record Env := {
  graph : Graph;
  damage_scores : gmap (Node * Node) Q;
  start : Node;
  goal : Node;
  urgency : Q;
  current_node : Node
}.

Definition move (env : Env) (n : Node) : Env :=
  {| graph := graph env; damage_scores := damage_scores env;
     start := start env; goal := goal env; urgency := urgency env;
     current_node := n |}.

Definition base_time (length : Q) : Q := length / 50.

Definition actual_time (length edge_damage : Q) : Q :=
  base_time length * (1 + edge_damage * 2).

(** The reward of one move, before the bonus for reaching the goal. *)
Definition move_reward (length edge_damage : Q) : Q :=
  - actual_time length edge_damage - edge_damage * 10.

(** [step]: the reward, [done] and the environment after the move;
    [None] when Python raises ([action] is not the index of a neighbour,
    or the current node is not in the graph). *)
Definition step (env : Env) (action : nat) : option (Q * bool * Env) :=
  succs ← assoc (current_node env) (graph env);
  next_node ← map fst succs !! action;
  data ← assoc next_node succs;
  let edge_damage := default 0 (damage_scores env !! (current_node env, next_node)) in
  let reward := move_reward (edge_length data) edge_damage in
  let done := (next_node =? goal env)%Z in
  let reward := if done then reward + urgency env * 50 else reward in
  Some (reward, done, move env next_node).

Definition reset (env : Env) : Env := move env (start env).

End Roadmap.

(** ** The risk router of the specification *)

Module RiskRouter.

Definition NodeId := nat.

Record Node := { node_id : NodeId; node_lat : Q; node_lon : Q }.

Record Edge := {
  edge_id : nat;
  source : NodeId;
  target : NodeId;
  length_m : Q;
  base_speed : Q;
  damage_score : Q
}.

Record NetworkGraph := { nodes : list Node; graph_edges : list Edge }.

(** The constants the specification asks to expose as configuration. *)
Record Config := {
  K_slowdown : Q;
  K_risk_penalty : Q;
  critical_threshold : Q;
  max_snap_distance : Q
}.

Definition default_config : Config :=
  {| K_slowdown := 2.0; K_risk_penalty := 10.0;
     critical_threshold := 0.8; max_snap_distance := 1 |}.

(** Modelled from the spec: the cost of traversing an edge (section 4.3,
    step 2); the router's code is not among the sources. *)
Definition edge_cost (k_slowdown k_risk_penalty length speed damage : Q) : Q :=
  (length / speed) * (1 + damage * k_slowdown) + damage * k_risk_penalty.

Definition travel_time (cfg : Config) (e : Edge) : Q :=
  (length_m e / base_speed e) * (1 + damage_score e * K_slowdown cfg).

Definition cost (cfg : Config) (e : Edge) : Q :=
  edge_cost (K_slowdown cfg) (K_risk_penalty cfg)
            (length_m e) (base_speed e) (damage_score e).

(** An edge below the critical threshold; the others are impassable. *)
Definition passable (cfg : Config) (e : Edge) : bool :=
  if Qlt_le_dec (damage_score e) (critical_threshold cfg) then true else false.

Record Route := {
  route_nodes : list NodeId;
  route_edges : list Edge;
  distance : Q;
  time : Q;
  risk : Q
}.

Inductive RouteResult :=
| Found (r : Route)
| NoNearbyNode
| RouteNotFound (blockages : nat).

(** Snapping: the node nearest to a coordinate by planar distance,
    compared through its square; the first of several nearest ones. *)
Definition distance2 (p : Q * Q) (n : Node) : Q :=
  (node_lat n - fst p) * (node_lat n - fst p) + (node_lon n - snd p) * (node_lon n - snd p).

Fixpoint nearest (p : Q * Q) (ns : list Node) : option Node :=
  match ns with
  | [] => None
  | n :: ns' =>
      match nearest p ns' with
      | Some m => if Qlt_le_dec (distance2 p m) (distance2 p n) then Some m else Some n
      | None => Some n
      end
  end.

Definition snap (cfg : Config) (g : NetworkGraph) (p : Q * Q) : option NodeId :=
  n ← nearest p (nodes g);
  if Qlt_le_dec (max_snap_distance cfg * max_snap_distance cfg) (distance2 p n)
  then None else Some (node_id n).

(** A partial path of the search: where it ends, its edges (the last
    one first) and its cost. *)
Record Label := { at_node : NodeId; path_rev : list Edge; cost_so_far : Q }.

Definition sumQ (l : list Q) : Q := fold_right Qplus 0 l.

Definition path_length (es : list Edge) : Q := sumQ (map length_m es).

(** The mean damage score of a path, weighted by edge length. *)
Definition risk_score (es : list Edge) : Q :=
  if Qeq_bool (path_length es) 0 then 0
  else sumQ (map (fun e => damage_score e * length_m e) es) / path_length es.

(** Lower cost first; at equal cost fewer edges, then lower risk. *)
Definition better (a b : Label) : bool :=
  match cost_so_far a ?= cost_so_far b with
  | Lt => true
  | Gt => false
  | Eq =>
      match Nat.compare (length (path_rev a)) (length (path_rev b)) with
      | Lt => true
      | Gt => false
      | Eq => if Qlt_le_dec (risk_score (path_rev a)) (risk_score (path_rev b))
              then true else false
      end
  end.

(** The best label of the frontier, and the others. *)
Fixpoint extractMin (l : list Label) : option (Label * list Label) :=
  match l with
  | [] => None
  | a :: l' =>
      match extractMin l' with
      | None => Some (a, [])
      | Some (b, rest) => if better b a then Some (b, a :: rest) else Some (a, l')
      end
  end.

Definition extend (cfg : Config) (l : Label) (e : Edge) : Label :=
  {| at_node := target e;
     path_rev := e :: path_rev l;
     cost_so_far := cost_so_far l + cost cfg e |}.

(** The edges the search may take out of node [n]. *)
Definition outgoing (cfg : Config) (g : NetworkGraph) (n : NodeId) : list Edge :=
  List.filter (fun e => (source e =? n)%nat && passable cfg e) (graph_edges g).

(** Modelled from the spec: the weighted shortest-path search (Dijkstra,
    section 4.3, steps 2 to 4) with a visited set and a bound on the
    number of labels it takes from the frontier. *)
Fixpoint search (cfg : Config) (g : NetworkGraph) (goal : NodeId) (fuel : nat)
    (frontier : list Label) (visited : list NodeId) : option Label :=
  match fuel with
  | O => None
  | S fuel' =>
      match extractMin frontier with
      | None => None
      | Some (best, rest) =>
          if (at_node best =? goal)%nat then Some best
          else if existsb (Nat.eqb (at_node best)) visited
               then search cfg g goal fuel' rest visited
               else search cfg g goal fuel'
                      (rest ++ map (extend cfg best) (outgoing cfg g (at_node best)))
                      (at_node best :: visited)
      end
  end.

Definition blockages (cfg : Config) (g : NetworkGraph) : nat :=
  length (List.filter (fun e => negb (passable cfg e)) (graph_edges g)).

Definition make_route (cfg : Config) (first : NodeId) (es : list Edge) : Route :=
  {| route_nodes := first :: map target es;
     route_edges := es;
     distance := path_length es;
     time := sumQ (map (travel_time cfg) es);
     risk := risk_score es |}.

(** Modelled from the spec: [find_route] (section 4.3); the router's
    code is not among the sources. *)
Definition find_route (cfg : Config) (g : NetworkGraph)
    (start_coordinate end_coordinate : Q * Q) : RouteResult :=
  match snap cfg g start_coordinate, snap cfg g end_coordinate with
  | Some s, Some t =>
      let first := {| at_node := s; path_rev := []; cost_so_far := 0 |} in
      match search cfg g t (length (graph_edges g) + 2) [first] [] with
      | Some l => Found (make_route cfg s (rev (path_rev l)))
      | None => RouteNotFound (blockages cfg g)
      end
  | _, _ => NoNearbyNode
  end.

(** A path of [g]: consecutive edges of the graph from [a] to [b]. *)
Inductive path (g : NetworkGraph) : NodeId -> list Edge -> NodeId -> Prop :=
| path_nil a : path g a [] a
| path_cons a e es b :
    In e (graph_edges g) -> source e = a -> path g (target e) es b ->
    path g a (e :: es) b.

(** What the search keeps true of every label: its edges are passable
    edges of the graph and form a path from [s] to where it ends. *)
Definition sound (cfg : Config) (g : NetworkGraph) (s : NodeId) (l : Label) : Prop :=
  Forall (fun e => passable cfg e = true) (path_rev l) /\
  path g s (rev (path_rev l)) (at_node l).

(** The grid of the end-to-end scenarios: [n] x [n] nodes, node [(i, j)]
    has identifier [i * n + j], every road is two directed edges of
    100 m at 100 m per minute. *)
Definition grid_nodes (n : nat) : list Node :=
  map (fun '(i, j) => {| node_id := (i * n + j)%nat;
                         node_lat := inject_Z (Z.of_nat i);
                         node_lon := inject_Z (Z.of_nat j) |})
      (list_prod (seq 0 n) (seq 0 n)).

Definition grid_pairs (n : nat) : list (NodeId * NodeId) :=
  flat_map (fun '(i, j) =>
    let here := (i * n + j)%nat in
    (if (j + 1 <? n)%nat then [(here, here + 1); (here + 1, here)]%nat else []) ++
    (if (i + 1 <? n)%nat then [(here, here + n); (here + n, here)]%nat else []))
    (list_prod (seq 0 n) (seq 0 n)).

Definition grid (n : nat) (damage_of : NodeId -> NodeId -> Q) : NetworkGraph :=
  {| nodes := grid_nodes n;
     graph_edges :=
       imap (fun k '(a, b) =>
               {| edge_id := k; source := a; target := b; length_m := 100;
                  base_speed := 100; damage_score := damage_of a b |})
            (grid_pairs n) |}.

(** Damage 0.95 on every edge incident to node [c], 0 elsewhere. *)
Definition damaged_around (c : NodeId) (a b : NodeId) : Q :=
  if ((a =? c) || (b =? c))%nat then 0.95 else 0.

End RiskRouter.

(** ** Drawing the edges ([drawEdges], [getDamageColor], [getDamageLevel]) *)

Definition getDamageColor (damage : Q) : string :=
  if Qlt_le_dec damage 0.2 then "#10b981"
  else if Qlt_le_dec damage 0.5 then "#f59e0b"
  else "#ef4444".

Definition getDamageLevel (damage : Q) : string :=
  if Qlt_le_dec damage 0.2 then "Güvenli"
  else if Qlt_le_dec damage 0.5 then "Riskli"
  else "Hasarlı".

(** The decimal digits of a natural number, the most significant first;
    [fuel] bounds their number. *)
Fixpoint digitsOf (fuel : nat) (n : Z) : list Z :=
  match fuel with
  | O => []
  | S fuel' => if (n <? 10)%Z then [n] else digitsOf fuel' (n / 10)%Z ++ [(n mod 10)%Z]
  end.

Definition decimalDigits (n : Z) : list Z := digitsOf (S (Z.to_nat (Z.log2 n))) n.

Definition digitChar (d : Z) : ascii := ascii_of_nat (48 + Z.to_nat d).

Fixpoint digitString (ds : list Z) : string :=
  match ds with
  | [] => EmptyString
  | d :: ds' => String (digitChar d) (digitString ds')
  end.

(** The integer [n] of [Number.prototype.toFixed]: [n / 10^f] is as close
    to the absolute value of [x] as possible, the larger [n] on a tie. *)
Definition fixedInteger (x : Q) (f : nat) : Z :=
  Qfloor (Qabs x * inject_Z (10 ^ Z.of_nat f) + 1 / 2).

(** [x.toFixed(f)] for at most 100 decimals and a number below [10^21]
    in absolute value: JavaScript raises a [RangeError] for more
    decimals and switches to the exponent notation from [10^21] on,
    neither of which is modelled. The dashboard calls it with 0 and with
    4 decimals. *)
Definition toFixed (x : Q) (f : nat) : string :=
  let n := fixedInteger x f in
  let m := decimalDigits n in
  let m := if (f =? 0)%nat then m else repeat 0%Z (S f - length m) ++ m in
  let k := length m in
  (if Qlt_le_dec x 0 then "-" else EmptyString) +:+
  digitString (take (k - f) m) +:+
  (if (f =? 0)%nat then EmptyString else "." +:+ digitString (drop (k - f) m)).

(** The number [x.toFixed(f)] denotes. *)
Definition fixedValue (x : Q) (f : nat) : Q :=
  let v := inject_Z (fixedInteger x f) / inject_Z (10 ^ Z.of_nat f) in
  if Qlt_le_dec x 0 then - v else v.

(** The two values the template of a popup contains. *)
Record Popup := { popup_percent : string; popup_level : string }.

(** A [L.polyline]: its points and the options it is given. *)
Record Polyline := {
  latlngs : list (Q * Q);
  color : string;
  weight : Z;
  opacity : Q;
  lineCap : option string;
  lineJoin : option string;
  popup : option Popup
}.

(** The line [drawEdges] adds for an edge; [edge.damage || 0] is
    [edge.damage]. The percentage of the popup rounds the exact product
    [damage * 100], where JavaScript rounds the product of doubles. *)
Definition edgeLine (edge : Edge) : Polyline :=
  {| latlngs := [(lat (from edge), lon (from edge)); (lat (to edge), lon (to edge))];
     color := getDamageColor (damage edge);
     weight := if Qlt_le_dec 0.5 (damage edge) then 4 else 2;
     opacity := 0.7;
     lineCap := None;
     lineJoin := None;
     popup := Some {| popup_percent := toFixed (damage edge * 100) 0 +:+ "%";
                      popup_level := getDamageLevel (damage edge) |} |}.

(** The layers of [state.layers.edges] after [drawEdges(edges)]. *)
Definition drawEdges (edges : list Edge) : list Polyline := map edgeLine edges.

(** ** The route panel ([handleMapClick], [setMarker], [drawRoute],
       [clearRoute]) *)

Inductive Selecting := SelectStart | SelectEnd.

(** [state.selecting], [state.markers], the two input fields, the layers
    of [state.layers.route] and whether the route information shows. *)
Record RoutePanel := {
  selecting : option Selecting;
  markerStart : option (Q * Q);
  markerEnd : option (Q * Q);
  startPoint : string;
  endPoint : string;
  routeLayer : list Polyline;
  routeInfoShown : bool
}.

(** The [focus] handlers of the two input fields. *)
Definition focusInput (which : Selecting) (p : RoutePanel) : RoutePanel :=
  {| selecting := Some which;
     markerStart := markerStart p; markerEnd := markerEnd p;
     startPoint := startPoint p; endPoint := endPoint p;
     routeLayer := routeLayer p; routeInfoShown := routeInfoShown p |}.

(** The text [handleMapClick] writes in an input field. *)
Definition coordinateText (lat lng : Q) : string :=
  toFixed lat 4 +:+ ", " +:+ toFixed lng 4.

(** [handleMapClick]: [setMarker] replaces the marker of the field that
    has the focus, and the field gets the text of the click. *)
Definition handleMapClick (lat lng : Q) (p : RoutePanel) : RoutePanel :=
  match selecting p with
  | Some SelectStart =>
      {| selecting := selecting p;
         markerStart := Some (lat, lng); markerEnd := markerEnd p;
         startPoint := coordinateText lat lng; endPoint := endPoint p;
         routeLayer := routeLayer p; routeInfoShown := routeInfoShown p |}
  | Some SelectEnd =>
      {| selecting := selecting p;
         markerStart := markerStart p; markerEnd := Some (lat, lng);
         startPoint := startPoint p; endPoint := coordinateText lat lng;
         routeLayer := routeLayer p; routeInfoShown := routeInfoShown p |}
  | None => p
  end.

(** The layers of [state.layers.route] after [drawRoute(routeData)];
    [path_coords] is [None] when the route has no such field. *)
Definition drawRoute (path_coords : option (list LatLon)) : list Polyline :=
  match path_coords with
  | Some path =>
      if (length path <? 2)%nat then []
      else
        let coords := map (fun c => (lat c, lon c)) path in
        [ {| latlngs := coords; color := "#3b82f6"; weight := 12; opacity := 0.3;
             lineCap := Some "round"; lineJoin := None; popup := None |};
          {| latlngs := coords; color := "#3b82f6"; weight := 5; opacity := 0.9;
             lineCap := Some "round"; lineJoin := Some "round"; popup := None |} ]
  | None => []
  end.

Definition clearRoute (p : RoutePanel) : RoutePanel :=
  {| selecting := selecting p;
     markerStart := None; markerEnd := None;
     startPoint := EmptyString; endPoint := EmptyString;
     routeLayer := []; routeInfoShown := false |}.

(** What happens on the panel: an input field takes the focus, the map
    is clicked, or the route is cleared. *)
Inductive PanelEvent :=
| Focus (which : Selecting)
| MapClick (lat lng : Q)
| ClearRoute.

Definition panelStep (p : RoutePanel) (ev : PanelEvent) : RoutePanel :=
  match ev with
  | Focus which => focusInput which p
  | MapClick lat lng => handleMapClick lat lng p
  | ClearRoute => clearRoute p
  end.

(** Every character of [s] satisfies [P]. *)
Fixpoint allChars (P : ascii -> bool) (s : string) : bool :=
  match s with
  | EmptyString => true
  | String c s' => P c && allChars P s'
  end.

(** ** Walks in the routing environment *)

(** The environment after the moves [actions], when none of them raises. *)
Fixpoint walk (env : Roadmap.Env) (actions : list nat) : option Roadmap.Env :=
  match actions with
  | [] => Some env
  | a :: rest =>
      match Roadmap.step env a with
      | Some (_, _, env') => walk env' rest
      | None => None
      end
  end.

(** * Properties *)

(** ** Loops that draw random numbers *)

Section ForEach.

Context {A B : Type} (f : A -> M B).

Lemma forEach_cons (x : A) (l : list A) (g : RNG) :
  forEach f (x :: l) g =
  (fst (f x g) :: fst (forEach f l (snd (f x g))), snd (forEach f l (snd (f x g)))).
Proof.
  simpl. unfold bind, ret.
  destruct (f x g) as [y g1]. simpl.
  destruct (forEach f l g1) as [ys g2]. reflexivity.
Qed.

(** A loop keeps an invariant [I] of the generator and relates every
    element to its image as its body does. *)
Lemma forEach_Forall2 (R : A -> B -> Prop) (I : RNG -> Prop) :
  (forall x g, I g -> R x (fst (f x g)) /\ I (snd (f x g))) ->
  forall l g, I g ->
    Forall2 R l (fst (forEach f l g)) /\ I (snd (forEach f l g)).
Proof.
  intros Hf l. induction l as [|x l IH]; intros g Hg.
  - simpl. split; [constructor | exact Hg].
  - rewrite forEach_cons. simpl.
    destruct (Hf x g Hg) as [Hx Hg1].
    destruct (IH _ Hg1) as [Hl Hg2].
    split; [constructor; assumption | assumption].
Qed.

Lemma forEach_length (l : list A) (g : RNG) :
  length (fst (forEach f l g)) = length l.
Proof.
  revert g. induction l as [|x l IH]; intros g; [reflexivity|].
  rewrite forEach_cons. simpl. by rewrite IH.
Qed.

End ForEach.

Lemma Math_random_unit (g : RNG) :
  in_unit_interval g ->
  0 <= fst (Math_random g) < 1 /\ in_unit_interval (snd (Math_random g)).
Proof. intros Hg. split; [apply Hg | exact Hg]. Qed.

(** Every body of a loop of the dashboard leaves the sequence of draws as
    it is, and so keeps [in_unit_interval]. *)
Lemma demoDamage_unit (rate : Q) (e : Edge) (g : RNG) :
  in_unit_interval g -> in_unit_interval (snd (demoDamage rate e g)).
Proof.
  intros Hg. unfold demoDamage, bind, ret, Math_random. simpl.
  destruct (Qlt_le_dec _ _); simpl; exact Hg.
Qed.

Lemma randomDamage_unit (e : Edge) (g : RNG) :
  in_unit_interval g -> in_unit_interval (snd (randomDamage e g)).
Proof. intros Hg. exact Hg. Qed.

(** The score [demoDamage] gives, from the two values it draws. *)
Lemma demoDamage_score (rate : Q) (e : Edge) (g : RNG) :
  let r := draws g (pos g) in
  let d := draws g (S (pos g)) in
  demoDamage rate e g =
  (if Qlt_le_dec r rate
   then (set_damage e (d * 0.5 + 0.3), true)
   else (set_damage e (d * 0.2), false),
   {| draws := draws g; pos := S (S (pos g)) |}).
Proof.
  unfold demoDamage, bind, ret, Math_random. simpl.
  destruct (Qlt_le_dec _ _); reflexivity.
Qed.


(** The edge at index [i] after [applyDemoScenario]: its score comes from
    the draws number [2 i] and [2 i + 1] that follow the generator's
    position. *)
Lemma forEach_demoDamage_lookup (rate : Q) (l : list Edge) (g : RNG) (i : nat) (e : Edge) :
  l !! i = Some e ->
  fst (forEach (demoDamage rate) l g) !! i =
  Some (fst (demoDamage rate e {| draws := draws g; pos := (pos g + 2 * i)%nat |})).
Proof.
  revert g i. induction l as [|x l IH]; intros g i Hi; [discriminate|].
  rewrite forEach_cons. destruct i as [|i]; simpl in Hi.
  - injection Hi as ->. simpl.
    rewrite Nat.add_0_r. by destruct g.
  - simpl. rewrite (IH _ i Hi).
    rewrite (demoDamage_score rate x g). simpl.
    do 3 f_equal. apply (f_equal (Build_RNG (draws g))). lia.
Qed.

(** ** The demo grid *)

(** C9: the fallback demo graph has exactly 40 edges, 20 along the rows
    and 20 along the columns of a 5 x 5 grid, and every edge has damage
    0. The edges along the rows start, one each and in the order of the
    loop, at the nodes [(i, j)] with [j < 4] and end 0.01 degree of
    longitude further, where node [(i, j + 1)] is; the edges along the
    columns start, one each, at the nodes [(i, j)] with [i < 4] and end
    0.01 degree of latitude further: one edge per pair of adjacent
    nodes, the starting points of the 20 edges of either kind being 20
    different points. The ends are stated as the code computes them, by adding 0.01
    to the start, and not by comparing them with the coordinates of the
    neighbour. *)
Theorem loadDemoData_grid (s : AppState) :
  let es := edges (loadDemoData s) in
  length es = 40%nat /\
  length (List.filter horizontal es) = 20%nat /\
  length (List.filter vertical es) = 20%nat /\
  map from (List.filter horizontal es) = map (fun '(i, j) => gridNode i j) (rowPairs 5) /\
  Forall (fun e => to e = {| lat := lat (from e); lon := lon (from e) + 0.01 |})
         (List.filter horizontal es) /\
  map from (List.filter vertical es) = map (fun '(i, j) => gridNode i j) (columnPairs 5) /\
  Forall (fun e => to e = {| lat := lat (from e) + 0.01; lon := lon (from e) |})
         (List.filter vertical es) /\
  NoDup (rowPairs 5) /\
  NoDup (columnPairs 5) /\
  distinctPoints (map from (List.filter horizontal es)) = true /\
  distinctPoints (map from (List.filter vertical es)) = true /\
  Forall (fun e => damage e = 0) es.
Proof.
  cbn zeta. change (edges (loadDemoData s)) with demoEdges.
  split; [vm_compute; reflexivity|].
  split; [vm_compute; reflexivity|].
  split; [vm_compute; reflexivity|].
  split; [vm_compute; reflexivity|].
  split.
  { let l := eval vm_compute in (List.filter horizontal demoEdges) in
    change (List.filter horizontal demoEdges) with l.
    repeat (constructor; [vm_compute; reflexivity|]). constructor. }
  split; [vm_compute; reflexivity|].
  split.
  { let l := eval vm_compute in (List.filter vertical demoEdges) in
    change (List.filter vertical demoEdges) with l.
    repeat (constructor; [vm_compute; reflexivity|]). constructor. }
  split; [apply (bool_decide_unpack (NoDup (rowPairs 5))); vm_compute; exact I|].
  split; [apply (bool_decide_unpack (NoDup (columnPairs 5))); vm_compute; exact I|].
  split; [vm_compute; reflexivity|].
  split; [vm_compute; reflexivity|].
  let l := eval vm_compute in demoEdges in change demoEdges with l.
  repeat (constructor; [reflexivity|]). constructor.
Qed.

(** ** Clearing a scenario *)

Lemma bind_eq {A B} (m : M A) (k : A -> M B) (g : RNG) :
  bind m k g = k (fst (m g)) (snd (m g)).
Proof. unfold bind. by destruct (m g). Qed.

(** A loop whose body only writes [damage] leaves the cleared edges as
    they were. *)
Lemma forEach_cleared {B} (f : Edge -> M B) (edge_of : B -> Edge) :
  (forall x g, set_damage (edge_of (fst (f x g))) 0 = set_damage x 0) ->
  forall l g,
    map (fun e => set_damage e 0) (map edge_of (fst (forEach f l g))) =
    map (fun e => set_damage e 0) l.
Proof.
  intros Hf l. induction l as [|x l IH]; intros g; [reflexivity|].
  rewrite forEach_cons. simpl. by rewrite Hf, IH.
Qed.

Lemma clearScenario_edges_eq (s s' : AppState) :
  map (fun e => set_damage e 0) (edges s') = map (fun e => set_damage e 0) (edges s) ->
  clearScenario s' = clearScenario s.
Proof. unfold clearScenario. by intros ->. Qed.

Lemma clear_after_applyDemoScenario (scenario : string) (s : AppState) (g : RNG) :
  clearScenario (fst (applyDemoScenario scenario s g)) = clearScenario s.
Proof.
  apply clearScenario_edges_eq. unfold applyDemoScenario. rewrite bind_eq. simpl.
  apply (forEach_cleared (demoDamage (damageRate scenario)) fst).
  intros x g'. rewrite demoDamage_score. simpl. by destruct (Qlt_le_dec _ _).
Qed.

Lemma clear_after_applyRandomDamage (s : AppState) (g : RNG) :
  clearScenario (fst (applyRandomDamage s g)) = clearScenario s.
Proof.
  apply clearScenario_edges_eq. unfold applyRandomDamage. rewrite bind_eq. simpl.
  rewrite <- (map_id (fst (forEach randomDamage (edges s) g))).
  by apply (forEach_cleared randomDamage (fun e => e)).
Qed.

(** ** The update of the edges in [loadDamageMap] *)

(** What the update does to one edge, and to the generator. *)
Lemma loadedDamage_cases (fmt : Q -> string) (m : gmap string Q) (e : Edge) (g : RNG) :
  loadedDamage fmt m e g =
  match readProperty m (edgeKey fmt e) with
  | Own d =>
      if Qeq_bool d 0
      then (Some (set_damage e (draws g (pos g) * 0.5)),
            {| draws := draws g; pos := S (pos g) |})
      else (Some (set_damage e d), g)
  | Inherited => (None, g)
  | Undefined =>
      (Some (set_damage e (draws g (pos g) * 0.5)),
       {| draws := draws g; pos := S (pos g) |})
  end.
Proof.
  unfold loadedDamage. destruct (readProperty m (edgeKey fmt e)) as [d| |];
    [destruct (Qeq_bool d 0)| |]; reflexivity.
Qed.

Lemma loadedDamage_unit (fmt : Q -> string) (m : gmap string Q) (e : Edge) (g : RNG) :
  in_unit_interval g -> in_unit_interval (snd (loadedDamage fmt m e g)).
Proof.
  intros Hg. rewrite loadedDamage_cases.
  destruct (readProperty m (edgeKey fmt e)) as [d| |];
    [destruct (Qeq_bool d 0)| |]; exact Hg.
Qed.

(** [allNumbers] gives the edges when none of them is missing, and is
    [None] when one is. *)
Lemma allNumbers_spec {A} (P : A -> Edge -> Prop) (N : A -> Prop)
    (l : list A) (ol : list (option Edge)) :
  Forall2 (fun x oy => match oy with Some y => P x y | None => N x end) l ol ->
  match allNumbers ol with
  | Some es => Forall2 P l es
  | None => Exists N l
  end.
Proof.
  induction 1 as [|x oy l ol Hx Hl IH]; simpl; [constructor|].
  destruct oy as [y|]; [|by constructor].
  destruct (allNumbers ol) as [es|]; [by constructor | by apply Exists_cons_tl].
Qed.

(** The edges after the update, one by one. *)
Lemma forEach_loadedDamage (fmt : Q -> string) (m : gmap string Q)
    (P : Edge -> Edge -> Prop) (N : Edge -> Prop) (I : RNG -> Prop) :
  (forall x g, I g ->
     match fst (loadedDamage fmt m x g) with Some y => P x y | None => N x end /\
     I (snd (loadedDamage fmt m x g))) ->
  forall l g, I g ->
    match allNumbers (fst (forEach (loadedDamage fmt m) l g)) with
    | Some es => Forall2 P l es
    | None => Exists N l
    end /\ I (snd (forEach (loadedDamage fmt m) l g)).
Proof.
  intros Hf l g Hg.
  destruct (forEach_Forall2 (loadedDamage fmt m)
              (fun x oy => match oy with Some y => P x y | None => N x end) I Hf l g Hg)
    as [H2 HI].
  split; [by apply allNumbers_spec | exact HI].
Qed.

Lemma Forall2_cleared (l k : list Edge) :
  Forall2 (fun e e' => set_damage e' 0 = set_damage e 0) l k ->
  map (fun e => set_damage e 0) k = map (fun e => set_damage e 0) l.
Proof. induction 1 as [|x y l k Hxy Hlk IH]; simpl; [reflexivity | by rewrite Hxy, IH]. Qed.

Lemma clear_after_loadDamageMap (fmt : Q -> string) (response : option DamageMapData)
    (s s' : AppState) (g : RNG) :
  fst (loadDamageMap fmt response s g) = Some s' ->
  clearScenario s' = clearScenario s.
Proof.
  destruct response as [data|]; unfold loadDamageMap; rewrite bind_eq.
  - destruct (zonesAndStats data) as [stats|].
    + cbn [ret fst].
      destruct (forEach_loadedDamage fmt (buildDamageMap (data_edges data))
                  (fun e e' => set_damage e' 0 = set_damage e 0) (fun _ => True)
                  (fun _ => True)) with (l := edges s) (g := g) as [H _]; [|done|].
      { intros x g' _. split; [|done]. rewrite loadedDamage_cases.
        destruct (readProperty _ _) as [d| |]; [destruct (Qeq_bool d 0)| |]; done. }
      destruct (allNumbers _) as [es|]; [|discriminate].
      intros [= <-]. apply clearScenario_edges_eq. cbn [edges]. by apply Forall2_cleared.
    + rewrite bind_eq. cbn [ret fst]. intros [= <-]. apply clear_after_applyRandomDamage.
  - cbn [ret fst]. intros [= <-]. apply clear_after_applyRandomDamage.
Qed.

Lemma clear_after_handleScenarioSelect (fmt : Q -> string) (scenario : string)
    (reply : PresetReply) (s s' : AppState) (g : RNG) :
  fst (handleScenarioSelect fmt scenario reply s g) = Some s' ->
  clearScenario s' = clearScenario s.
Proof.
  unfold handleScenarioSelect. destruct (String.eqb scenario "none").
  - cbn [ret fst]. intros [= <-]. unfold clearScenario. simpl. f_equal.
    rewrite map_map. reflexivity.
  - destruct reply as [|result response].
    + rewrite bind_eq. cbn [ret fst]. intros [= <-]. apply clear_after_applyDemoScenario.
    + intros H. by rewrite (clear_after_loadDamageMap _ _ _ _ _ H).
Qed.

Lemma clear_after_selectAll (fmt : Q -> string) (presses : list (string * PresetReply))
    (s s' : AppState) (g : RNG) :
  fst (selectAll fmt presses s g) = Some s' ->
  clearScenario s' = clearScenario s.
Proof.
  revert s g. induction presses as [|[scenario reply] rest IH]; intros s g.
  - cbn [selectAll ret fst]. by intros [= <-].
  - cbn [selectAll]. rewrite bind_eq.
    destruct (fst (handleScenarioSelect fmt scenario reply s g)) as [s1|] eqn:E1;
      [|discriminate].
    intros H. rewrite (IH _ _ H). by eapply clear_after_handleScenarioSelect.
Qed.

(** *** Edges whose key is no member of [Object.prototype] *)

Lemma plainKeys_clearScenario (fmt : Q -> string) (s : AppState) :
  plainKeys fmt (clearScenario s) = plainKeys fmt s.
Proof.
  unfold plainKeys, clearScenario. cbn [edges].
  induction (edges s) as [|e l IH]; [reflexivity|].
  cbn [map forallb]. by rewrite IH.
Qed.

Lemma plainKeys_cleared (fmt : Q -> string) (s s' : AppState) :
  clearScenario s' = clearScenario s -> plainKeys fmt s' = plainKeys fmt s.
Proof.
  intros H. rewrite <- (plainKeys_clearScenario fmt s'), H. apply plainKeys_clearScenario.
Qed.

Lemma plainKeys_edges (fmt : Q -> string) (s : AppState) :
  plainKeys fmt s = true ->
  Forall (fun e => inheritedKey (edgeKey fmt e) = false) (edges s).
Proof.
  unfold plainKeys. intros H. apply List.Forall_forall. intros e He.
  rewrite forallb_forall in H. specialize (H e He). by destruct (inheritedKey _).
Qed.

(** With such edges every edge receives a number. *)
Lemma loadDamageMap_numbers (fmt : Q -> string) (response : option DamageMapData)
    (s : AppState) (g : RNG) :
  plainKeys fmt s = true -> is_Some (fst (loadDamageMap fmt response s g)).
Proof.
  intros Hplain. destruct response as [data|]; unfold loadDamageMap; rewrite bind_eq.
  - destruct (zonesAndStats data) as [stats|].
    + cbn [ret fst].
      destruct (forEach_loadedDamage fmt (buildDamageMap (data_edges data))
                  (fun _ _ => True) (fun e => inheritedKey (edgeKey fmt e) = true)
                  (fun _ => True)) with (l := edges s) (g := g) as [H _]; [|done|].
      { intros x g' _. split; [|done]. rewrite loadedDamage_cases.
        unfold readProperty. destruct (_ !! _) as [d|]; [by destruct (Qeq_bool d 0)|].
        by destruct (inheritedKey _). }
      destruct (allNumbers _) as [es|]; [by eexists|].
      apply List.Exists_exists in H as (e & He & Hk).
      pose proof (plainKeys_edges fmt s Hplain) as Hall.
      rewrite List.Forall_forall in Hall. specialize (Hall e He). congruence.
    + rewrite bind_eq. cbn [ret fst]. by eexists.
  - cbn [ret fst]. by eexists.
Qed.

Lemma handleScenarioSelect_numbers (fmt : Q -> string) (scenario : string)
    (reply : PresetReply) (s : AppState) (g : RNG) :
  plainKeys fmt s = true -> is_Some (fst (handleScenarioSelect fmt scenario reply s g)).
Proof.
  intros Hplain. unfold handleScenarioSelect. destruct (String.eqb scenario "none").
  - by eexists.
  - destruct reply as [|result response].
    + rewrite bind_eq. by eexists.
    + by apply loadDamageMap_numbers.
Qed.

Lemma selectAll_numbers (fmt : Q -> string) (presses : list (string * PresetReply))
    (s : AppState) (g : RNG) :
  plainKeys fmt s = true -> is_Some (fst (selectAll fmt presses s g)).
Proof.
  revert s g. induction presses as [|[scenario reply] rest IH]; intros s g Hplain.
  - by eexists.
  - cbn [selectAll]. rewrite bind_eq.
    destruct (handleScenarioSelect_numbers fmt scenario reply s g Hplain) as [s1 E1].
    rewrite E1. apply IH.
    rewrite (plainKeys_cleared fmt s s1); [exact Hplain|].
    by eapply clear_after_handleScenarioSelect.
Qed.

Lemma set_damage_same (e : Edge) : damage e = 0 -> set_damage e 0 = e.
Proof. destruct e as [i f t d]. unfold set_damage. simpl. by intros ->. Qed.

(** C4: clearing keeps every edge (its identifier and its two ends, in
    the same order) and sets its damage to exactly 0; it takes the
    scenario away and puts both counters to 0; clearing twice is
    clearing once; after any sequence of scenario selections clearing
    gives the state that clearing gave before them, so that edges that
    started with damage 0 are back as they started; and a sequence of
    selections always ends in such a state when no edge is looked up
    under the name of a member of [Object.prototype]. *)
Theorem clearScenario_resets_damage :
  (forall s,
     Forall2 (fun e e' => id e' = id e /\ from e' = from e /\ to e' = to e /\ damage e' = 0)
             (edges s) (edges (clearScenario s))) /\
  (forall s,
     currentScenario (clearScenario s) = None /\
     damagedRoads (clearScenario s) = 0%Z /\ damagedBridges (clearScenario s) = 0%Z) /\
  (forall s, clearScenario (clearScenario s) = clearScenario s) /\
  (forall fmt presses s g s',
     fst (selectAll fmt presses s g) = Some s' ->
     clearScenario s' = clearScenario s /\
     (Forall (fun e => damage e = 0) (edges s) -> edges (clearScenario s') = edges s)) /\
  (forall fmt presses s g,
     plainKeys fmt s = true ->
     exists s', fst (selectAll fmt presses s g) = Some s' /\
                clearScenario s' = clearScenario s).
Proof.
  split; [|split; [|split; [|split]]].
  - intros s. cbn [clearScenario edges].
    induction (edges s) as [|e l IH]; simpl; constructor; [done | exact IH].
  - done.
  - intros s. unfold clearScenario. simpl. f_equal.
    rewrite map_map. reflexivity.
  - intros fmt presses s g s' H.
    pose proof (clear_after_selectAll _ _ _ _ _ H) as Hc.
    split; [exact Hc|]. intros H0. rewrite Hc. cbn [clearScenario edges].
    induction H0 as [|e l He Hl IH]; [reflexivity|].
    cbn [map]. by rewrite IH, set_damage_same.
  - intros fmt presses s g Hplain.
    destruct (selectAll_numbers fmt presses s g Hplain) as [s' H].
    exists s'. split; [exact H|]. by eapply clear_after_selectAll.
Qed.

(** ** Generators for the examples *)

Lemma constant_in_unit (q : Q) : 0 <= q < 1 -> in_unit_interval (constant q).
Proof. intros Hq n. exact Hq. Qed.

Lemma cycle_in_unit (l : list Q) :
  Forall (fun q => 0 <= q < 1) l -> in_unit_interval (cycle l).
Proof.
  intros Hl n. simpl. generalize (n mod length l)%nat. clear n.
  induction Hl as [|q l Hq Hl IH]; intros [|k]; simpl; try lra.
  apply IH.
Qed.

(** ** Scores after a scenario *)

Lemma Forall2_right {A B} (P : B -> Prop) (l : list A) (k : list B) :
  Forall2 (fun _ y => P y) l k -> Forall P k.
Proof. induction 1; constructor; assumption. Qed.




Lemma buildDamageMap_proto (entries : list DamageEntry) :
  buildDamageMap entries !! "__proto__" = None.
Proof.
  unfold buildDamageMap.
  assert (Hgen : forall m : gmap string Q, m !! "__proto__" = None ->
             fold_left (fun m e => storeProperty m (propertyKey (entry_id e)) (entry_damage e))
                       entries m !! "__proto__" = None); [|by apply Hgen].
  induction entries as [|en entries IH]; intros m Hm; [exact Hm|].
  cbn [fold_left]. apply IH. unfold storeProperty.
  destruct (String.eqb _ _) eqn:E; [exact Hm|].
  apply String.eqb_neq in E. by rewrite lookup_insert_ne.
Qed.





(** ** The two branches of [applyDemoScenario] *)

(** C2, as the code has it: for the edge at index [i], a value [r] is
    drawn and then a value [d]; when [r] is below the rate of the
    scenario the damage is [d * 0.5 + 0.3], in the interval from 0.3 to
    0.8 (0.8 excluded), and otherwise it is [d * 0.2], in the interval
    from 0 to 0.2 (0.2 excluded). *)
Theorem applyDemoScenario_scores (scenario : string) (s : AppState) (g : RNG)
    (i : nat) (e : Edge) :
  in_unit_interval g ->
  edges s !! i = Some e ->
  let r := draws g (pos g + 2 * i) in
  let d := draws g (S (pos g + 2 * i)) in
  exists e',
    edges (fst (applyDemoScenario scenario s g)) !! i = Some e' /\
    (r < damageRate scenario ->
       damage e' = d * 0.5 + 0.3 /\ 0.3 <= damage e' < 0.8) /\
    (damageRate scenario <= r ->
       damage e' = d * 0.2 /\ 0 <= damage e' < 0.2).
Proof.
  intros Hg Hi r d.
  exists (fst (fst (demoDamage (damageRate scenario) e
                      {| draws := draws g; pos := (pos g + 2 * i)%nat |}))).
  split.
  - unfold applyDemoScenario. rewrite bind_eq. simpl.
    change (map fst ?l) with (fst <$> l). rewrite list_lookup_fmap.
    by rewrite (forEach_demoDamage_lookup _ _ _ _ _ Hi).
  - rewrite demoDamage_score. cbn [draws pos fst]. fold r d.
    pose proof (Hg (S (pos g + 2 * i))) as Hd. fold d in Hd.
    destruct (Qlt_le_dec r (damageRate scenario)) as [Hlt|Hle]; cbn [fst damage set_damage].
    + split; [intros _; split; [reflexivity | lra] | intros Hle; lra].
    + split; [intros Hlt; lra | intros _; split; [reflexivity | lra]].
Qed.

Lemma applyDemoScenario_scores_witness :
  let g := cycle [0; 0.9] in
  let s := loadDemoData initialState in
  let e := {| id := None; from := gridNode 0 0;
              to := {| lat := lat (gridNode 0 0); lon := lon (gridNode 0 0) + 0.01 |};
              damage := 0 |} in
  in_unit_interval g /\
  edges s !! 0%nat = Some e /\
  exists e',
    edges (fst (applyDemoScenario "siddetli" s g)) !! 0%nat = Some e' /\
    (draws g (pos g + 2 * 0) < damageRate "siddetli" ->
       damage e' = draws g (S (pos g + 2 * 0)) * 0.5 + 0.3 /\ 0.3 <= damage e' < 0.8) /\
    (damageRate "siddetli" <= draws g (pos g + 2 * 0) ->
       damage e' = draws g (S (pos g + 2 * 0)) * 0.2 /\ 0 <= damage e' < 0.2).
Proof.
  intros g s e.
  assert (Hg : in_unit_interval g).
  { apply cycle_in_unit. repeat constructor; lra. }
  assert (He : edges s !! 0%nat = Some e) by reflexivity.
  split; [exact Hg|]. split; [exact He|].
  exact (applyDemoScenario_scores "siddetli" s g 0 e Hg He).
Defined.

(** C2, as the specification words it, fails: with the draws 0 and 0.9
    the edge is damaged and its score is 0.75, whereas a uniform draw
    from the interval from 0.3 to 1.0 gives 0.93 for the draw 0.9. *)
Lemma applyDemoScenario_score_not_uniform_up_to_1 :
  let e := {| id := None; from := gridNode 0 0; to := gridNode 0 1; damage := 0 |} in
  let s := {| edges := [e]; currentScenario := None;
              damagedRoads := 0; damagedBridges := 0 |} in
  let s' := fst (applyDemoScenario "siddetli" s (cycle [0; 0.9])) in
  let uniform := fst (Roadmap.random_uniform 0.3 1.0 (constant 0.9)) in
  damagedRoads s' = 1%Z /\
  uniform == 0.93 /\
  match edges s' with
  | [e'] => damage e' == 0.75 /\ ~ damage e' == uniform
  | _ => False
  end.
Proof.
  vm_compute. repeat split; try reflexivity. intros H; discriminate H.
Qed.

(** The roadmap's [generate_scenario], for comparison: an edge whose
    draw is below [base_prob] gets a score in the interval from 0.3 to
    1.0, and an edge whose draw is not gets no entry at all. *)
Lemma scenario_entry_scores (severity : Q) (u v : Roadmap.Node)
    (data : Roadmap.EdgeData) (g : RNG) :
  in_unit_interval g ->
  let r := draws g (pos g) in
  let d := draws g (S (pos g)) in
  (r < Roadmap.base_prob severity data ->
     fst (Roadmap.scenario_entry severity (u, v, data) g) = Some (u, v, 0.3 + (1.0 - 0.3) * d)
     /\ 0.3 <= 0.3 + (1.0 - 0.3) * d < 1.0) /\
  (Roadmap.base_prob severity data <= r ->
     fst (Roadmap.scenario_entry severity (u, v, data) g) = None).
Proof.
  intros Hg r d. pose proof (Hg (S (pos g))) as Hd. fold d in Hd.
  unfold Roadmap.scenario_entry, Roadmap.random_uniform, bind, ret, Math_random.
  cbn [draws pos fst snd]. fold r.
  destruct (Qlt_le_dec r (Roadmap.base_prob severity data)) as [Hlt|Hle].
  - split; [intros _; split; [reflexivity | lra] | intros Hle; lra].
  - split; [intros Hlt; lra | intros _; reflexivity].
Qed.

(** ** Damage grows with the magnitude *)

(** In [generate_scenario] the probability of damage is the severity
    over 10, times 1.5 on a bridge: it grows with the severity, and an
    edge that a draw damages at a severity is damaged by the same draw at
    every higher one. *)
Lemma base_prob_monotone (m1 m2 : Q) (data : Roadmap.EdgeData) (r : Q) :
  m1 <= m2 ->
  Roadmap.base_prob m1 data <= Roadmap.base_prob m2 data /\
  (r < Roadmap.base_prob m1 data -> r < Roadmap.base_prob m2 data).
Proof.
  intros Hm. unfold Roadmap.base_prob.
  assert (H : m1 / 10 <= m2 / 10)
    by (unfold Qdiv; apply Qmult_le_compat_r; [exact Hm | by apply Qinv_le_0_compat]).
  destruct (Roadmap.bridge data); split; lra.
Qed.

Lemma presetMagnitude_rate (sc1 sc2 : string) (m1 m2 : Q) :
  presetMagnitude sc1 = Some m1 -> presetMagnitude sc2 = Some m2 -> m1 < m2 ->
  damageRate sc1 <= damageRate sc2.
Proof.
  unfold presetMagnitude, damageRate.
  destruct (String.eqb sc1 "hafif"), (String.eqb sc1 "orta"), (String.eqb sc1 "siddetli"),
           (String.eqb sc2 "hafif"), (String.eqb sc2 "orta"), (String.eqb sc2 "siddetli");
    intros H1 H2 Hlt; try discriminate;
    injection H1 as <-; injection H2 as <-; lra.
Qed.

(** With the same draws, an edge that a rate damages is damaged by
    every rate above it. *)
Lemma demoDamage_monotone (rate1 rate2 : Q) (e : Edge) (g : RNG) :
  rate1 <= rate2 -> in_unit_interval g ->
  isDamaged (fst (fst (demoDamage rate1 e g))) = true ->
  isDamaged (fst (fst (demoDamage rate2 e g))) = true.
Proof.
  intros Hrate Hg. rewrite !demoDamage_score. cbn [fst].
  pose proof (Hg (S (pos g))) as Hd. unfold isDamaged.
  destruct (Qlt_le_dec (draws g (pos g)) rate1), (Qlt_le_dec (draws g (pos g)) rate2);
    cbn [fst damage set_damage];
    repeat match goal with |- context [Qlt_le_dec ?a ?b] => destruct (Qlt_le_dec a b) end;
    try reflexivity; try discriminate; lra.
Qed.

Lemma forEach_demoDamage_monotone (rate1 rate2 : Q) (l : list Edge) (g : RNG) :
  rate1 <= rate2 -> in_unit_interval g ->
  (length (List.filter isDamaged (map fst (fst (forEach (demoDamage rate1) l g)))) <=
   length (List.filter isDamaged (map fst (fst (forEach (demoDamage rate2) l g)))))%nat.
Proof.
  intros Hrate. revert g. induction l as [|x l IH]; intros g Hg; [reflexivity|].
  rewrite !forEach_cons. cbn [fst map List.filter].
  pose proof (demoDamage_monotone rate1 rate2 x g Hrate Hg) as Hx.
  assert (Hsnd : snd (demoDamage rate1 x g) = snd (demoDamage rate2 x g))
    by (by rewrite !demoDamage_score).
  rewrite Hsnd.
  assert (Hg' : in_unit_interval (snd (demoDamage rate2 x g))) by (by apply demoDamage_unit).
  specialize (IH _ Hg').
  destruct (isDamaged (fst (fst (demoDamage rate1 x g)))).
  - rewrite Hx by reflexivity. simpl. lia.
  - destruct (isDamaged (fst (fst (demoDamage rate2 x g)))); simpl; lia.
Qed.

(** C6: for two preset scenarios with magnitudes [m1 < m2] applied to
    the same edges with the same draws, the rate of damage does not
    decrease, and neither does the number nor the fraction of edges
    whose damage is at least 0.3; this holds for every sequence of draws,
    hence for the expected fraction. *)
Theorem damaged_fraction_monotone (sc1 sc2 : string) (m1 m2 : Q) (s : AppState) (g : RNG) :
  presetMagnitude sc1 = Some m1 -> presetMagnitude sc2 = Some m2 -> m1 < m2 ->
  in_unit_interval g ->
  damageRate sc1 <= damageRate sc2 /\
  (damagedEdges (fst (applyDemoScenario sc1 s g)) <=
   damagedEdges (fst (applyDemoScenario sc2 s g)))%nat /\
  damagedFraction (fst (applyDemoScenario sc1 s g)) <=
  damagedFraction (fst (applyDemoScenario sc2 s g)).
Proof.
  intros H1 H2 Hlt Hg.
  pose proof (presetMagnitude_rate sc1 sc2 m1 m2 H1 H2 Hlt) as Hrate.
  assert (Hcount : (damagedEdges (fst (applyDemoScenario sc1 s g)) <=
                    damagedEdges (fst (applyDemoScenario sc2 s g)))%nat).
  { unfold damagedEdges, applyDemoScenario. rewrite !bind_eq. cbn [fst ret edges].
    by apply forEach_demoDamage_monotone. }
  split; [exact Hrate|]. split; [exact Hcount|].
  unfold damagedFraction.
  assert (Hlen : forall sc, length (edges (fst (applyDemoScenario sc s g))) = length (edges s)).
  { intros sc. unfold applyDemoScenario. rewrite bind_eq. cbn [fst ret edges].
    by rewrite length_map, forEach_length. }
  rewrite !Hlen. unfold Qdiv. apply Qmult_le_compat_r.
  - rewrite <- Zle_Qle. lia.
  - apply Qinv_le_0_compat. change 0 with (inject_Z 0). rewrite <- Zle_Qle. lia.
Qed.

Lemma damaged_fraction_monotone_witness :
  let g := cycle [0.2; 0.9] in
  let s := loadDemoData initialState in
  presetMagnitude "hafif" = Some 5.5 /\
  presetMagnitude "siddetli" = Some 7.2 /\
  5.5 < 7.2 /\
  in_unit_interval g /\
  damageRate "hafif" <= damageRate "siddetli" /\
  (damagedEdges (fst (applyDemoScenario "hafif" s g)) <=
   damagedEdges (fst (applyDemoScenario "siddetli" s g)))%nat /\
  damagedFraction (fst (applyDemoScenario "hafif" s g)) <=
  damagedFraction (fst (applyDemoScenario "siddetli" s g)).
Proof.
  intros g s.
  assert (Hg : in_unit_interval g).
  { apply cycle_in_unit. repeat constructor; lra. }
  assert (Hlt : 5.5 < 7.2) by lra.
  split; [reflexivity|]. split; [reflexivity|]. split; [exact Hlt|]. split; [exact Hg|].
  exact (damaged_fraction_monotone "hafif" "siddetli" 5.5 7.2 s g eq_refl eq_refl Hlt Hg).
Defined.

(** ** The demo route *)

(** C5, as the code has it: whatever [Math.random] returns, two calls of
    [createDemoRoute] with the same start and end agree on the estimated
    time (12.5), the distance (2.3), the risk score (0.25), the method
    and the number of points (6); every point is the point of the
    straight line plus a jitter [(Math.random() - 0.5) * 0.002] on each
    coordinate, taken from the twelve values the call draws. *)
Theorem createDemoRoute_shape (startLat startLon endLat endLon : Q) (g1 g2 : RNG) :
  let r1 := fst (createDemoRoute startLat startLon endLat endLon g1) in
  let r2 := fst (createDemoRoute startLat startLon endLat endLon g2) in
  (estimated_time r1 = 12.5 /\ estimated_time r2 = 12.5) /\
  (distance_km r1 = 2.3 /\ distance_km r2 = 2.3) /\
  (risk_score r1 = 0.25 /\ risk_score r2 = 0.25) /\
  method r1 = method r2 /\
  (length (path_coords r1) = 6%nat /\ length (path_coords r2) = 6%nat) /\
  path_coords r1 =
    map (fun i =>
           {| lat := interpolate startLat endLat i
                     + (draws g1 (2 * i + pos g1) - 0.5) * 0.002;
              lon := interpolate startLon endLon i
                     + (draws g1 (2 * i + 1 + pos g1) - 0.5) * 0.002 |})
        (seq 0 (steps + 1)) /\
  pos (snd (createDemoRoute startLat startLon endLat endLon g1)) = (12 + pos g1)%nat.
Proof.
  repeat split; reflexivity.
Qed.

(** C5, as the specification words it, fails on [createDemoRoute]: a
    second call with the same four arguments continues the sequence of
    draws and returns another path. *)
Lemma createDemoRoute_not_deterministic :
  let g := {| draws := fun n => if (n <? 12)%nat then 0 else 0.5; pos := 0 |} in
  let first := createDemoRoute 41 29 41.02 29.02 g in
  let second := createDemoRoute 41 29 41.02 29.02 (snd first) in
  in_unit_interval g /\
  match path_coords (fst first), path_coords (fst second) with
  | p :: _, q :: _ => lat p == 40.999 /\ lat q == 41 /\ ~ lat p == lat q
  | _, _ => False
  end.
Proof.
  split.
  - intros n. simpl. destruct (n <? 12)%nat; lra.
  - vm_compute. repeat split; try reflexivity. intros H; discriminate H.
Qed.


(** ** Looking an edge up in the damage map *)

Lemma edgeKey_id (fmt : Q -> string) (e : Edge) (i : EdgeId) :
  id e = Some i -> truthy i = true -> edgeKey fmt e = propertyKey i.
Proof. unfold edgeKey. by intros -> ->. Qed.

Lemma edgeKey_coordinates (fmt : Q -> string) (e : Edge) :
  id e = None -> edgeKey fmt e = fmt (lat (from e)) +:+ "_" +:+ fmt (lat (to e)).
Proof. unfold edgeKey. by intros ->. Qed.

Lemma demoEdges_no_id : Forall (fun e => id e = None) demoEdges.
Proof.
  unfold demoEdges. apply Forall_flat_map, Forall_forall. intros i _.
  apply Forall_flat_map, Forall_forall. intros j _.
  unfold demoEdgesAt. apply Forall_app.
  split; [destruct (j <? 4)%nat | destruct (i <? 4)%nat]; repeat constructor.
Qed.

(** C8, as the code has it: every demo edge is looked up by the string
    made of the latitudes of its two ends. When the statements that
    follow the update of the edges do not throw, an edge whose key the
    damage map sends to a score other than 0 has that score, an edge
    whose key is absent, or sent to 0, has the damage
    [Math.random() * 0.5], in the interval from 0 to 0.5 (0.5 excluded),
    and the run ends without a number for an edge exactly when the key
    of an edge without an entry names a member of [Object.prototype].
    When they throw, every edge has the damage [Math.random() * 0.6],
    whatever the damage map holds. The edges keep their identifier and
    their ends. *)
Theorem loadDamageMap_lookup (fmt : Q -> string) (data : DamageMapData)
    (s : AppState) (g : RNG) :
  in_unit_interval g ->
  Forall (fun e => edgeKey fmt e = fmt (lat (from e)) +:+ "_" +:+ fmt (lat (to e)))
         demoEdges /\
  (forall stats,
     zonesAndStats data = Some stats ->
     match fst (loadDamageMap fmt (Some data) s g) with
     | Some s' =>
         Forall2 (fun e e' =>
                    id e' = id e /\ from e' = from e /\ to e' = to e /\
                    match readProperty (buildDamageMap (data_edges data)) (edgeKey fmt e) with
                    | Own d =>
                        if Qeq_bool d 0
                        then exists r, 0 <= r < 1 /\ damage e' = r * 0.5 /\ 0 <= damage e' < 0.5
                        else damage e' = d
                    | Inherited => False
                    | Undefined =>
                        exists r, 0 <= r < 1 /\ damage e' = r * 0.5 /\ 0 <= damage e' < 0.5
                    end)
                 (edges s) (edges s')
     | None =>
         Exists (fun e => readProperty (buildDamageMap (data_edges data)) (edgeKey fmt e)
                          = Inherited)
                (edges s)
     end) /\
  (zonesAndStats data = None ->
   exists s',
     fst (loadDamageMap fmt (Some data) s g) = Some s' /\
     Forall2 (fun e e' =>
                id e' = id e /\ from e' = from e /\ to e' = to e /\
                exists r, 0 <= r < 1 /\ damage e' = r * 0.6 /\ 0 <= damage e' < 0.6)
             (edges s) (edges s')).
Proof.
  intros Hg. split; [|split].
  - eapply Forall_impl; [apply demoEdges_no_id|].
    intros e He. by apply edgeKey_coordinates.
  - intros stats Hstats. unfold loadDamageMap. rewrite bind_eq, Hstats. cbn [ret fst].
    destruct (forEach_loadedDamage fmt (buildDamageMap (data_edges data))
                (fun e e' =>
                   id e' = id e /\ from e' = from e /\ to e' = to e /\
                   match readProperty (buildDamageMap (data_edges data)) (edgeKey fmt e) with
                   | Own d =>
                       if Qeq_bool d 0
                       then exists r, 0 <= r < 1 /\ damage e' = r * 0.5 /\ 0 <= damage e' < 0.5
                       else damage e' = d
                   | Inherited => False
                   | Undefined =>
                       exists r, 0 <= r < 1 /\ damage e' = r * 0.5 /\ 0 <= damage e' < 0.5
                   end)
                (fun e => readProperty (buildDamageMap (data_edges data)) (edgeKey fmt e)
                          = Inherited)
                in_unit_interval) with (l := edges s) (g := g) as [H _]; [|exact Hg|].
    { intros x g' Hg'. split; [|by apply loadedDamage_unit].
      rewrite loadedDamage_cases. pose proof (Hg' (pos g')) as Hr.
      destruct (readProperty _ _) as [d| |]; [destruct (Qeq_bool d 0)| |];
        cbn [fst id from to damage set_damage]; try done.
      - repeat split. exists (draws g' (pos g')).
        split; [exact Hr|]. split; [reflexivity | lra].
      - repeat split. exists (draws g' (pos g')).
        split; [exact Hr|]. split; [reflexivity | lra]. }
    destruct (allNumbers _) as [es|]; exact H.
  - intros Hstats. unfold loadDamageMap. rewrite bind_eq, Hstats, bind_eq. cbn [ret fst].
    eexists. split; [reflexivity|].
    unfold applyRandomDamage. rewrite bind_eq. cbn [ret fst edges].
    apply (forEach_Forall2 _ _ in_unit_interval).
    + intros x g' Hg'. split; [|exact Hg'].
      pose proof (Hg' (pos g')) as Hr. cbn. repeat split; try done.
      exists (draws g' (pos g')). split; [exact Hr|]. split; [reflexivity | lra].
    + destruct (forEach_loadedDamage fmt (buildDamageMap (data_edges data))
                  (fun _ _ => True) (fun _ => True) in_unit_interval)
        with (l := edges s) (g := g) as [_ Hg1]; [|exact Hg|exact Hg1].
      intros x g' Hg'. split; [by destruct (fst _) | by apply loadedDamage_unit].
Qed.

Lemma loadDamageMap_lookup_witness :
  let g := constant 0.5 in
  let data := {| data_edges := [ {| entry_id := IdStr "41_41.01"; entry_damage := 0.7 |} ];
                 data_zones := Some [];
                 data_stats := Some {| damaged_edges := 1; critical_edges := 0 |} |} in
  let s := loadDemoData initialState in
  in_unit_interval g /\
  exists s',
    fst (loadDamageMap decimalString (Some data) s g) = Some s' /\
    Forall2 (fun e e' =>
               id e' = id e /\ from e' = from e /\ to e' = to e /\
               match readProperty (buildDamageMap (data_edges data))
                                  (edgeKey decimalString e) with
               | Own d =>
                   if Qeq_bool d 0
                   then exists r, 0 <= r < 1 /\ damage e' = r * 0.5 /\ 0 <= damage e' < 0.5
                   else damage e' = d
               | Inherited => False
               | Undefined =>
                   exists r, 0 <= r < 1 /\ damage e' = r * 0.5 /\ 0 <= damage e' < 0.5
               end)
            (edges s) (edges s').
Proof.
  intros g data s.
  assert (Hg : in_unit_interval g) by (intros n; simpl; lra).
  split; [exact Hg|].
  destruct (loadDamageMap_lookup decimalString data s g Hg) as (_ & Hok & _).
  specialize (Hok {| damaged_edges := 1; critical_edges := 0 |} eq_refl).
  destruct (fst (loadDamageMap decimalString (Some data) s g)) as [s'|] eqn:E.
  - exists s'. split; [reflexivity | exact Hok].
  - vm_compute in E. discriminate E.
Defined.

(** C8, as the specification words it, fails: the first and the third
    demo edge have no identifier and share the key ["41_41"], made of
    their latitudes; with an empty damage map and the draw 0.5 the first
    edge gets the damage 0.25, not 0; and the score the server sends for
    the key ["41_41"] goes to both edges. *)
Lemma loadDamageMap_coordinate_key_random_default :
  let s := loadDemoData initialState in
  let stats := Some {| damaged_edges := 1; critical_edges := 1 |} in
  let empty := {| data_edges := []; data_zones := Some []; data_stats := stats |} in
  let one := {| data_edges := [ {| entry_id := IdStr "41_41"; entry_damage := 0.9 |} ];
                data_zones := Some []; data_stats := stats |} in
  match edges s with
  | e1 :: _ :: e2 :: _ =>
      id e1 = None /\ id e2 = None /\ same_point (from e1) (from e2) = false /\
      edgeKey decimalString e1 = "41_41" /\ edgeKey decimalString e2 = "41_41" /\
      readProperty (buildDamageMap (data_edges empty)) (edgeKey decimalString e1) = Undefined
  | _ => False
  end /\
  match fst (loadDamageMap decimalString (Some empty) s (constant 0.5)) with
  | Some s' =>
      match edges s' with
      | e1' :: _ => damage e1' == 0.25 /\ ~ damage e1' == 0
      | _ => False
      end
  | None => False
  end /\
  match fst (loadDamageMap decimalString (Some one) s (constant 0.5)) with
  | Some s' =>
      match edges s' with
      | e1' :: _ :: e2' :: _ => damage e1' == 0.9 /\ damage e2' == 0.9
      | _ => False
      end
  | None => False
  end.
Proof.
  vm_compute. repeat split; try reflexivity. intros H; discriminate H.
Qed.

(** ** The route request *)

(** C10: [calculateRoute] sends a request exactly when both input
    strings are not empty, and the request carries what [parseFloat]
    returned, unchecked: for the inputs ["abc"] and ["xyz"] it is sent
    with [NaN] as both latitudes and no longitude. *)
Theorem calculateRoute_sends_unvalidated :
  (forall startInput endInput,
     is_Some (calculateRoute startInput endInput) <->
     startInput <> EmptyString /\ endInput <> EmptyString) /\
  (forall startInput endInput request,
     calculateRoute startInput endInput = Some request <->
     (startInput <> EmptyString /\ endInput <> EmptyString) /\
     request = {| request_start := parseCoordinate startInput;
                  request_end := parseCoordinate endInput;
                  request_vehicle_type := "ambulance";
                  request_urgency := 0.8;
                  request_method := "astar" |}) /\
  calculateRoute "abc" "xyz" =
    Some {| request_start := {| coord_lat := Some NaN; coord_lon := None |};
            request_end := {| coord_lat := Some NaN; coord_lon := None |};
            request_vehicle_type := "ambulance";
            request_urgency := 0.8;
            request_method := "astar" |}.
Proof.
  split; [|split].
  - intros s e. unfold calculateRoute.
    destruct (String.eqb s EmptyString) eqn:Hs, (String.eqb e EmptyString) eqn:He; simpl;
      rewrite ?String.eqb_eq, ?String.eqb_neq in *; split;
      try (intros [x Hx]; discriminate Hx); try (intros [? ?]; congruence);
      try (intros _; split; assumption); intros _; eexists; reflexivity.
  - intros s e request. unfold calculateRoute.
    destruct (String.eqb s EmptyString) eqn:Hs, (String.eqb e EmptyString) eqn:He; simpl;
      rewrite ?String.eqb_eq, ?String.eqb_neq in *; split;
      try discriminate; try (intros [[? ?] _]; congruence).
    + intros [= <-]. split; [split; assumption | reflexivity].
    + intros [_ ->]. reflexivity.
  - reflexivity.
Qed.

(** ** The routing environment of the roadmap *)

Lemma move_reward_is_edge_cost (length edge_damage : Q) :
  Roadmap.move_reward length edge_damage ==
  - RiskRouter.edge_cost 2.0 10.0 length 50 edge_damage.
Proof.
  unfold Roadmap.move_reward, Roadmap.actual_time, Roadmap.base_time, RiskRouter.edge_cost.
  ring.
Qed.

(** C7: the cost of a move in [DisasterRoutingEnv.step], the opposite
    of its reward before the bonus of the goal, is
    [(length / base_speed) * (1 + damage * K_slowdown) + damage * K_risk_penalty]
    with the base speed 50 and the default constants 2.0 and 10.0; the
    damage of an edge absent from [damage_scores] is 0. *)
Theorem step_cost_formula (env env' : Roadmap.Env) (action : nat) (reward : Q) (done : bool) :
  Roadmap.step env action = Some (reward, done, env') ->
  RiskRouter.K_slowdown RiskRouter.default_config = 2.0 /\
  RiskRouter.K_risk_penalty RiskRouter.default_config = 10.0 /\
  exists succs data,
    Roadmap.assoc (Roadmap.current_node env) (Roadmap.graph env) = Some succs /\
    map fst succs !! action = Some (Roadmap.current_node env') /\
    Roadmap.assoc (Roadmap.current_node env') succs = Some data /\
    done = (Roadmap.current_node env' =? Roadmap.goal env)%Z /\
    let edge_damage :=
      default 0 (Roadmap.damage_scores env
                   !! (Roadmap.current_node env, Roadmap.current_node env')) in
    reward ==
      - RiskRouter.edge_cost (RiskRouter.K_slowdown RiskRouter.default_config)
                             (RiskRouter.K_risk_penalty RiskRouter.default_config)
                             (Roadmap.edge_length data) 50 edge_damage
      + (if done then Roadmap.urgency env * 50 else 0).
Proof.
  unfold Roadmap.step. intros H.
  destruct (Roadmap.assoc _ (Roadmap.graph env)) as [succs|] eqn:Hsuccs; [|discriminate].
  cbn [mbind option_bind] in H.
  destruct (map fst succs !! action) as [next_node|] eqn:Hnext; [|discriminate].
  cbn [mbind option_bind] in H.
  destruct (Roadmap.assoc next_node succs) as [data|] eqn:Hdata; [|discriminate].
  cbn [mbind option_bind] in H.
  injection H as <- <- <-.
  split; [reflexivity|]. split; [reflexivity|].
  exists succs, data. cbn [Roadmap.move Roadmap.current_node].
  repeat split; try assumption.
  cbn zeta. cbn [RiskRouter.default_config RiskRouter.K_slowdown RiskRouter.K_risk_penalty].
  pose proof (move_reward_is_edge_cost (Roadmap.edge_length data)
                (default 0 (Roadmap.damage_scores env !! (Roadmap.current_node env, next_node))))
    as Hcost.
  destruct (next_node =? Roadmap.goal env)%Z; rewrite Hcost.
  - reflexivity.
  - symmetry. apply Qplus_0_r.
Qed.

Lemma step_cost_formula_witness :
  let env :=
    {| Roadmap.graph :=
         [(1, [(2, {| Roadmap.edge_length := 100; Roadmap.bridge := false |})]); (2, [])]%Z;
       Roadmap.damage_scores := {[ (1, 2)%Z := 0.5 ]};
       Roadmap.start := 1%Z; Roadmap.goal := 2%Z; Roadmap.urgency := 0.8;
       Roadmap.current_node := 1%Z |} in
  exists reward env',
    Roadmap.step env 0 = Some (reward, true, env') /\
    reward == 31 /\
    Roadmap.current_node env' = 2%Z /\
    RiskRouter.K_slowdown RiskRouter.default_config = 2.0 /\
    RiskRouter.K_risk_penalty RiskRouter.default_config = 10.0.
Proof.
  intros env.
  destruct (Roadmap.step env 0) as [[[reward done] env']|] eqn:Hstep;
    [|vm_compute in Hstep; discriminate Hstep].
  assert (Hdone : done = true) by (vm_compute in Hstep; congruence).
  subst done.
  destruct (step_cost_formula env env' 0 reward true Hstep) as (Hs & Hp & _).
  exists reward, env'. split; [reflexivity|].
  split; [vm_compute in Hstep; injection Hstep as <- _; reflexivity|].
  split; [vm_compute in Hstep; injection Hstep as _ <-; reflexivity|].
  split; [exact Hs | exact Hp].
Defined.

(** ** The risk router *)

Section Router.

Import RiskRouter.

Variable cfg : Config.
Variable g : NetworkGraph.

Lemma passable_below (e : RiskRouter.Edge) :
  passable cfg e = true <-> damage_score e < critical_threshold cfg.
Proof.
  unfold passable. destruct (Qlt_le_dec _ _) as [Hlt|Hle]; split; try done.
  intros Hlt. exfalso. apply (Qlt_irrefl (damage_score e)). by eapply Qlt_le_trans.
Qed.

Lemma extractMin_In (l rest : list Label) (b : Label) :
  extractMin l = Some (b, rest) ->
  In b l /\ (forall x, In x rest -> In x l).
Proof.
  revert rest b. induction l as [|a l IH]; intros rest b; simpl; [discriminate|].
  destruct (extractMin l) as [[b' rest']|].
  - destruct (IH _ _ eq_refl) as [Hb Hrest].
    destruct (better b' a); intros [= <- <-].
    + split; [by right|]. intros x [<-|Hx]; [by left | right; by apply Hrest].
    + split; [by left | intros x Hx; by right].
  - intros [= <- <-]. split; [by left | intros x []].
Qed.

Lemma outgoing_spec (n : NodeId) (e : RiskRouter.Edge) :
  In e (outgoing cfg g n) ->
  In e (graph_edges g) /\ source e = n /\ passable cfg e = true.
Proof.
  unfold outgoing. intros He. apply filter_In in He as [Hin Hb].
  apply andb_prop in Hb as [Hs Hp]. apply Nat.eqb_eq in Hs. done.
Qed.

Lemma path_snoc (a b : NodeId) (es : list RiskRouter.Edge) (e : RiskRouter.Edge) :
  path g a es b -> In e (graph_edges g) -> source e = b ->
  path g a (es ++ [e]) (target e).
Proof.
  induction 1 as [a|a e' es b Hin Hsrc Hp IH]; intros He Hs; simpl.
  - econstructor; [exact He | exact Hs | constructor].
  - econstructor; [exact Hin | exact Hsrc | by apply IH].
Qed.

Lemma extend_sound (s : NodeId) (l : Label) (e : RiskRouter.Edge) :
  sound cfg g s l -> In e (outgoing cfg g (at_node l)) -> sound cfg g s (extend cfg l e).
Proof.
  intros [Hpass Hpath] He. apply outgoing_spec in He as (Hin & Hsrc & Hp).
  split; simpl.
  - by constructor.
  - by apply (path_snoc s (at_node l)).
Qed.

Lemma search_sound (s goal : NodeId) (fuel : nat) :
  forall frontier visited l,
    Forall (sound cfg g s) frontier ->
    search cfg g goal fuel frontier visited = Some l ->
    sound cfg g s l /\ at_node l = goal.
Proof.
  induction fuel as [|fuel IH]; intros frontier visited l Hfr; simpl; [discriminate|].
  destruct (extractMin frontier) as [[best rest]|] eqn:Hmin; [|discriminate].
  apply extractMin_In in Hmin as [Hbest Hrest].
  rewrite List.Forall_forall in Hfr.
  assert (Hrest' : Forall (sound cfg g s) rest).
  { apply List.Forall_forall. intros x Hx. apply Hfr, Hrest, Hx. }
  destruct (at_node best =? goal)%nat eqn:Hgoal.
  - intros [= <-]. split; [by apply Hfr | by apply Nat.eqb_eq].
  - match goal with |- (if ?c then _ else _) = _ -> _ => destruct c end.
    + by apply IH.
    + apply IH. apply Forall_app. split; [exact Hrest'|].
      apply List.Forall_forall. intros x Hx.
      apply in_map_iff in Hx as (e & <- & He).
      apply extend_sound; [by apply Hfr | exact He].
Qed.

(** A route that [find_route] returns is a path of the graph between
    the two nodes the coordinates snap to. *)
Lemma find_route_path (p q : Q * Q) (r : RiskRouter.Route) :
  find_route cfg g p q = Found r ->
  exists s t, snap cfg g p = Some s /\ snap cfg g q = Some t /\
              path g s (route_edges r) t.
Proof.
  unfold find_route.
  destruct (snap cfg g p) as [s|]; [|discriminate].
  destruct (snap cfg g q) as [t|]; [|discriminate].
  destruct (search _ _ _ _ _ _) as [l|] eqn:Hsearch; [|discriminate].
  intros [= <-]. exists s, t. split; [done|]. split; [done|].
  apply (search_sound s) in Hsearch as [[_ Hpath] <-]; [exact Hpath|].
  repeat constructor.
Qed.

(** C1: the search only ever takes edges below the critical-damage
    threshold, and no edge of a route that [find_route] returns has a
    damage score at or above it. *)
Theorem find_route_avoids_critical_edges (p q : Q * Q) :
  (forall n, Forall (fun e => damage_score e < critical_threshold cfg) (outgoing cfg g n)) /\
  (forall r, find_route cfg g p q = Found r ->
     Forall (fun e => In e (graph_edges g) /\ damage_score e < critical_threshold cfg)
            (route_edges r)).
Proof.
  split.
  - intros n. apply List.Forall_forall. intros e He.
    apply outgoing_spec in He as (_ & _ & Hp). by apply passable_below.
  - intros r Hr. destruct (find_route_path p q r Hr) as (s & t & _ & _ & Hpath).
    revert Hr. unfold find_route.
    destruct (snap cfg g p) as [s'|]; [|discriminate].
    destruct (snap cfg g q) as [t'|]; [|discriminate].
    destruct (search _ _ _ _ _ _) as [l|] eqn:Hsearch; [|discriminate].
    intros [= <-]. simpl in *.
    apply (search_sound s') in Hsearch as [[Hpass _] _]; [|repeat constructor].
    apply Forall_rev in Hpass.
    assert (Hin : Forall (fun e => In e (graph_edges g)) (rev (path_rev l))).
    { clear -Hpath. induction Hpath; constructor; assumption. }
    rewrite List.Forall_forall in *. intros e He. split; [by apply Hin|].
    apply passable_below. by apply Hpass.
Qed.

End Router.

Lemma find_route_avoids_critical_edges_witness :
  let cfg := RiskRouter.default_config in
  let g := RiskRouter.grid 5 (RiskRouter.damaged_around 12%nat) in
  exists r,
    RiskRouter.find_route cfg g (2, 0) (2, 4) = RiskRouter.Found r /\
    RiskRouter.route_nodes r = [10; 5; 6; 7; 8; 9; 14]%nat /\
    Forall (fun e => In e (RiskRouter.graph_edges g) /\
                     RiskRouter.damage_score e < RiskRouter.critical_threshold cfg)
           (RiskRouter.route_edges r).
Proof.
  intros cfg g.
  destruct (RiskRouter.find_route cfg g (2, 0) (2, 4)) as [r| |] eqn:Hr;
    [|vm_compute in Hr; discriminate Hr..].
  exists r. split; [reflexivity|]. split.
  - vm_compute in Hr. injection Hr as <-. reflexivity.
  - exact (proj2 (find_route_avoids_critical_edges cfg g (2, 0) (2, 4)) r Hr).
Defined.

(** The end-to-end scenarios on the 5 x 5 grid: without damage the route
    between opposite corners has 8 edges and takes 8 minutes; with the
    edges around the centre at 0.95 the route across the middle row goes
    round the centre (6 edges instead of 4), and the centre itself cannot
    be reached; a damage of 0.01 there is only a penalty. *)
Lemma find_route_grid_examples :
  let cfg := RiskRouter.default_config in
  let clear := RiskRouter.grid 5 (fun _ _ => 0) in
  let blocked := RiskRouter.grid 5 (RiskRouter.damaged_around 12%nat) in
  let light := RiskRouter.grid 5 (fun a b => if ((a =? 12) || (b =? 12))%nat then 0.01 else 0) in
  match RiskRouter.find_route cfg clear (0, 0) (4, 4) with
  | RiskRouter.Found r => length (RiskRouter.route_edges r) = 8%nat /\ RiskRouter.time r == 8
  | _ => False
  end /\
  match RiskRouter.find_route cfg clear (2, 0) (2, 4),
        RiskRouter.find_route cfg blocked (2, 0) (2, 4),
        RiskRouter.find_route cfg light (2, 0) (2, 4) with
  | RiskRouter.Found r0, RiskRouter.Found r1, RiskRouter.Found r2 =>
      RiskRouter.route_nodes r0 = [10; 11; 12; 13; 14]%nat /\
      RiskRouter.route_nodes r1 = [10; 5; 6; 7; 8; 9; 14]%nat /\
      RiskRouter.route_nodes r2 = [10; 11; 12; 13; 14]%nat
  | _, _, _ => False
  end /\
  RiskRouter.find_route cfg blocked (0, 0) (2, 2) = RiskRouter.RouteNotFound 8 /\
  RiskRouter.find_route cfg clear (0, 0) (9, 9) = RiskRouter.NoNearbyNode.
Proof.
  vm_compute. repeat split; reflexivity.
Qed.

(** ** Drawing the edges *)

Lemma getDamageColor_cases (d : Q) :
  (d < 0.2 /\ getDamageColor d = "#10b981" /\ getDamageLevel d = "Güvenli") \/
  (0.2 <= d < 0.5 /\ getDamageColor d = "#f59e0b" /\ getDamageLevel d = "Riskli") \/
  (0.5 <= d /\ getDamageColor d = "#ef4444" /\ getDamageLevel d = "Hasarlı").
Proof.
  unfold getDamageColor, getDamageLevel.
  destruct (Qlt_le_dec d 0.2); [by left|].
  destruct (Qlt_le_dec d 0.5); [right; left | right; right]; done.
Qed.

(** X1: [drawEdges] adds one line per edge, in the order of the edges,
    between the two ends of the edge; a thick line (weight 4) is always
    red and labelled "Hasarlı", a red line is thin only for a damage of
    exactly 0.5, and a line is green exactly when its label is "Güvenli",
    that is when the damage is below 0.2. *)
Theorem drawEdges_lines (es : list Edge) :
  length (drawEdges es) = length es /\
  Forall2 (fun e l =>
             latlngs l = [(lat (from e), lon (from e)); (lat (to e), lon (to e))] /\
             (weight l = 4%Z <-> 0.5 < damage e) /\
             (weight l = 4%Z ->
                color l = "#ef4444" /\
                popup_level <$> popup l = Some "Hasarlı") /\
             (color l = "#ef4444" <-> 0.5 <= damage e) /\
             (color l = "#10b981" <-> damage e < 0.2) /\
             (color l = "#10b981" <-> popup_level <$> popup l = Some "Güvenli"))
          es (drawEdges es).
Proof.
  split; [apply length_map|].
  unfold drawEdges. induction es as [|e es IH]; simpl; constructor; [|exact IH].
  cbn [latlngs weight color popup edgeLine fmap option_fmap option_map popup_level].
  split; [reflexivity|].
  destruct (getDamageColor_cases (damage e)) as [(Hd & -> & ->)|[(Hd & -> & ->)|(Hd & -> & ->)]];
    destruct (Qlt_le_dec 0.5 (damage e)) as [Hw|Hw];
    repeat split; intros; try done; try lra.
Qed.

(** X2: After [clearScenario] every edge is drawn as a thin green line whose
    popup reads 0% and "Güvenli". *)
Theorem drawEdges_after_clearScenario (s : AppState) :
  Forall (fun l => color l = "#10b981" /\ weight l = 2%Z /\
                   popup l = Some {| popup_percent := "0%"; popup_level := "Güvenli" |})
         (drawEdges (edges (clearScenario s))).
Proof.
  simpl. unfold drawEdges. rewrite map_map.
  induction (edges s) as [|e es IH]; simpl; constructor; [|exact IH].
  repeat split.
Qed.

(** ** The counters after a demo scenario *)

Lemma demoDamage_flag (rate : Q) (e : Edge) (g : RNG) :
  in_unit_interval g ->
  let r := fst (demoDamage rate e g) in
  snd r = isDamaged (fst r) /\
  isDamaged (fst r) = negb (String.eqb (color (edgeLine (fst r))) "#10b981").
Proof.
  intros Hg. rewrite demoDamage_score. cbn [fst].
  pose proof (Hg (S (pos g))) as Hd.
  unfold isDamaged, edgeLine, getDamageColor. cbn [color].
  destruct (Qlt_le_dec (draws g (pos g)) rate); cbn [fst snd damage set_damage];
    repeat match goal with |- context [Qlt_le_dec ?a ?b] => destruct (Qlt_le_dec a b) end;
    try (split; reflexivity); lra.
Qed.

(** X3: After [applyDemoScenario] the counter of damaged roads is the number
    of edges with a damage of at least 0.3, which is the number of lines
    that [drawEdges] does not draw green; no edge has a damage between
    0.2 and 0.3; the counter of damaged bridges is a tenth of the first,
    rounded down. *)
Theorem applyDemoScenario_counters (scenario : string) (s : AppState) (g : RNG) :
  in_unit_interval g ->
  let s' := fst (applyDemoScenario scenario s g) in
  damagedRoads s' = Z.of_nat (damagedEdges s') /\
  damagedRoads s' =
    Z.of_nat (length (List.filter (fun l => negb (String.eqb (color l) "#10b981"))
                                  (drawEdges (edges s')))) /\
  Forall (fun e => damage e < 0.2 \/ 0.3 <= damage e) (edges s') /\
  damagedBridges s' = (damagedRoads s' / 10)%Z /\
  (0 <= damagedRoads s' <= Z.of_nat (length (edges s)))%Z.
Proof.
  intros Hg. unfold applyDemoScenario. rewrite bind_eq. cbn [fst ret].
  set (res := fst (forEach (demoDamage (damageRate scenario)) (edges s) g)).
  assert (Hres : Forall (fun r => snd r = isDamaged (fst r) /\
                   isDamaged (fst r) = negb (String.eqb (color (edgeLine (fst r))) "#10b981") /\
                   (damage (fst r) < 0.2 \/ 0.3 <= damage (fst r))) res).
  { apply (Forall2_right _ (edges s)).
    apply (forEach_Forall2 _ _ in_unit_interval); [|exact Hg].
    intros x g' Hg'. split; [|by apply demoDamage_unit].
    destruct (demoDamage_flag (damageRate scenario) x g' Hg') as [H1 H2].
    split; [exact H1|]. split; [exact H2|].
    rewrite demoDamage_score. cbn [fst]. pose proof (Hg' (S (pos g'))) as Hd.
    destruct (Qlt_le_dec _ _); cbn [fst damage set_damage]; [right | left]; lra. }
  assert (Hlen : length res = length (edges s)) by apply forEach_length.
  cbn [damagedRoads damagedBridges edges]. unfold damagedEdges, count_true, drawEdges.
  cbn [edges]. clearbody res. rewrite <- Hlen. clear Hlen Hg.
  induction Hres as [|r res (H1 & H2 & H3) Hres (IH1 & IH2 & IH3 & _ & IH5)].
  - simpl. repeat split; try constructor; lia.
  - cbn [map List.filter length] in *. rewrite <- H2, <- H1.
    destruct (snd r); cbn [length]; repeat split; try lia.
    + by constructor.
    + by constructor.
Qed.

Lemma applyDemoScenario_counters_witness :
  let g := cycle [0.2; 0.9] in
  let s' := fst (applyDemoScenario "orta" (loadDemoData initialState) g) in
  in_unit_interval g /\
  damagedRoads s' = Z.of_nat (damagedEdges s') /\
  damagedRoads s' = 40%Z /\ damagedBridges s' = 4%Z.
Proof.
  intros g s'.
  assert (Hg : in_unit_interval g).
  { apply cycle_in_unit. repeat constructor; lra. }
  destruct (applyDemoScenario_counters "orta" (loadDemoData initialState) g Hg)
    as (H1 & _ & _ & _ & _).
  split; [exact Hg|]. split; [exact H1|]. split; reflexivity.
Defined.

(** ** Decimal digits *)

Arguments digitChar : simpl never.
Arguments isDigit : simpl never.
Arguments isWhiteSpace : simpl never.
Arguments digitValue : simpl never.

Lemma digitsValue_snoc (l : list Z) (d : Z) :
  digitsValue (l ++ [d]) = (digitsValue l * 10 + d)%Z.
Proof. unfold digitsValue. by rewrite fold_left_app. Qed.

Lemma digitsOf_value (fuel : nat) (n : Z) :
  (0 <= n < 10 ^ Z.of_nat fuel)%Z -> digitsValue (digitsOf fuel n) = n.
Proof.
  revert n. induction fuel as [|fuel IH]; intros n Hn.
  - simpl in *. unfold digitsValue. simpl. lia.
  - cbn [digitsOf]. destruct (n <? 10)%Z eqn:H10.
    + unfold digitsValue. simpl. lia.
    + apply Z.ltb_ge in H10. rewrite digitsValue_snoc, IH.
      * pose proof (Z.div_mod n 10). lia.
      * rewrite Nat2Z.inj_succ, Z.pow_succ_r in Hn by lia.
        split; [apply Z.div_pos; lia | apply Z.div_lt_upper_bound; lia].
Qed.

Lemma digitsOf_range (fuel : nat) (n : Z) :
  (0 <= n)%Z -> Forall (fun d => 0 <= d <= 9)%Z (digitsOf fuel n).
Proof.
  revert n. induction fuel as [|fuel IH]; intros n Hn; [constructor|].
  cbn [digitsOf]. destruct (n <? 10)%Z eqn:H10.
  - apply Z.ltb_lt in H10. repeat constructor; lia.
  - apply Forall_app. split.
    + apply IH. apply Z.div_pos; lia.
    + repeat constructor; pose proof (Z.mod_pos_bound n 10); lia.
Qed.

Lemma digitsOf_length (fuel : nat) (n : Z) : (1 <= length (digitsOf (S fuel) n))%nat.
Proof.
  cbn [digitsOf]. destruct (n <? 10)%Z; [simpl; lia|].
  rewrite length_app. simpl. lia.
Qed.

Lemma decimalDigits_spec (n : Z) :
  (0 <= n)%Z ->
  digitsValue (decimalDigits n) = n /\
  Forall (fun d => 0 <= d <= 9)%Z (decimalDigits n) /\
  (1 <= length (decimalDigits n))%nat.
Proof.
  intros Hn. unfold decimalDigits. split; [|split].
  - apply digitsOf_value. split; [exact Hn|].
    rewrite Nat2Z.inj_succ, Z2Nat.id by apply Z.log2_nonneg.
    destruct (Z.eq_dec n 0%Z) as [->|Hne]; [reflexivity|].
    pose proof (Z.log2_spec n ltac:(lia)) as [_ Hlt].
    eapply Z.lt_le_trans; [exact Hlt|].
    apply Z.pow_le_mono_l. lia.
  - by apply digitsOf_range.
  - apply digitsOf_length.
Qed.

Lemma digit_cases (d : Z) :
  (0 <= d <= 9)%Z ->
  d = 0%Z \/ d = 1%Z \/ d = 2%Z \/ d = 3%Z \/ d = 4%Z \/
  d = 5%Z \/ d = 6%Z \/ d = 7%Z \/ d = 8%Z \/ d = 9%Z.
Proof. lia. Qed.

Lemma digitChar_spec (d : Z) :
  (0 <= d <= 9)%Z ->
  isDigit (digitChar d) = true /\ digitValue (digitChar d) = d /\
  isWhiteSpace (digitChar d) = false /\
  digitChar d <> "+"%char /\ digitChar d <> "-"%char /\ digitChar d <> "I"%char.
Proof.
  intros Hd. destruct (digit_cases d Hd) as [->|[->|[->|[->|[->|[->|[->|[->|[->| ->]]]]]]]]];
    repeat split; try reflexivity; discriminate.
Qed.

Lemma append_nil_l (s : string) : EmptyString +:+ s = s.
Proof. reflexivity. Qed.

Lemma append_cons (c : ascii) (s t : string) : String c s +:+ t = String c (s +:+ t).
Proof. reflexivity. Qed.

Lemma digitString_app (a b : list Z) :
  digitString (a ++ b) = digitString a +:+ digitString b.
Proof. induction a as [|d a IH]; simpl; [reflexivity | by rewrite IH]. Qed.

(** Reading back the digits that were written, up to a character that
    is not a digit. *)
Lemma spanDigits_digitString (ds : list Z) (rest : string) :
  Forall (fun d => 0 <= d <= 9)%Z ds ->
  match rest with String c _ => isDigit c = false | EmptyString => True end ->
  spanDigits (digitString ds +:+ rest) = (ds, rest).
Proof.
  intros Hds Hrest. induction Hds as [|d ds Hd Hds IH].
  - cbn [digitString]. rewrite append_nil_l.
    destruct rest as [|c r]; cbn [spanDigits]; [reflexivity | by rewrite Hrest].
  - cbn [digitString]. rewrite append_cons. cbn [spanDigits].
    destruct (digitChar_spec d Hd) as (-> & -> & _). by rewrite IH.
Qed.

Lemma string_app_empty (s : string) : s +:+ EmptyString = s.
Proof.
  induction s as [|c s IH]; [reflexivity|].
  rewrite append_cons. by f_equal.
Qed.

Lemma digitsValue_zeros (k : nat) (ds : list Z) :
  digitsValue (repeat 0%Z k ++ ds) = digitsValue ds.
Proof. unfold digitsValue. induction k as [|k IH]; simpl; [reflexivity | exact IH]. Qed.

(** What [parseFloat] reads in an integer part [a], not empty, followed
    or not by a point and decimals [b]. *)
Lemma unsignedDecimal_digits (a b : list Z) (point : bool) :
  Forall (fun d => 0 <= d <= 9)%Z a -> Forall (fun d => 0 <= d <= 9)%Z b ->
  (1 <= length a)%nat -> (point = false -> b = []) ->
  exists q,
    unsignedDecimal (digitString a +:+
                     (if point then "." +:+ digitString b else EmptyString)) =
      Some (Finite q) /\
    q == inject_Z (digitsValue (a ++ b)) / inject_Z (10 ^ Z.of_nat (length b)).
Proof.
  intros Ha Hb Hlen Hpoint. unfold unsignedDecimal.
  destruct a as [|d a]; [simpl in Hlen; lia|].
  assert (Hd : (0 <= d <= 9)%Z) by (by inversion Ha).
  destruct (digitChar_spec d Hd) as (_ & _ & _ & _ & _ & HI).
  assert (Hpre : forall r, String.prefix "Infinity" (digitString (d :: a) +:+ r) = false).
  { intros r. cbn [digitString]. rewrite append_cons. cbn [String.prefix].
    destruct (ascii_dec "I" (digitChar d)) as [E|]; [by symmetry in E | reflexivity]. }
  rewrite Hpre. destruct point.
  - rewrite spanDigits_digitString by done.
    change ("." +:+ digitString b) with (String "." (digitString b)). cbv iota beta.
    rewrite <- (string_app_empty (digitString b)), spanDigits_digitString by done.
    eexists. split; [reflexivity|]. cbn [exponentPart].
    change (10 ^ 0) with 1. apply Qmult_1_r.
  - rewrite (Hpoint eq_refl), string_app_empty.
    rewrite <- (string_app_empty (digitString (d :: a))), spanDigits_digitString by done.
    eexists. split; [reflexivity|]. cbn [exponentPart length]. rewrite app_nil_r.
    change (10 ^ 0) with 1. change (inject_Z (10 ^ Z.of_nat 0)) with 1.
    unfold Qdiv. change (/ 1) with 1. reflexivity.
Qed.

(** ** [toFixed] and [parseFloat] *)

Lemma fixedInteger_nonneg (x : Q) (f : nat) : (0 <= fixedInteger x f)%Z.
Proof.
  assert (H0 : (Qfloor 0 <= fixedInteger x f)%Z); [|exact H0].
  unfold fixedInteger. apply Qfloor_resp_le.
  assert (0 <= Qabs x) by apply Qabs_nonneg.
  assert (0 <= inject_Z (10 ^ Z.of_nat f)).
  { change 0 with (inject_Z 0). rewrite <- Zle_Qle. lia. }
  assert (Hy : 0 <= Qabs x * inject_Z (10 ^ Z.of_nat f)) by (by apply Qmult_le_0_compat).
  revert Hy. generalize (Qabs x * inject_Z (10 ^ Z.of_nat f)). intros y Hy.
  assert (Hh : 1 / 2 == 0.5) by reflexivity. rewrite Hh. lra.
Qed.

(** The text of [x.toFixed(f)]: a sign, at least one digit, and a point
    followed by exactly [f] digits when [f] is not 0. *)
Lemma toFixed_shape (x : Q) (f : nat) :
  exists a b,
    toFixed x f =
      (if Qlt_le_dec x 0 then "-" else EmptyString) +:+ digitString a +:+
      (if (f =? 0)%nat then EmptyString else "." +:+ digitString b) /\
    Forall (fun d => 0 <= d <= 9)%Z a /\ Forall (fun d => 0 <= d <= 9)%Z b /\
    (1 <= length a)%nat /\ length b = f /\
    ((f =? 0)%nat = true -> b = []) /\
    digitsValue (a ++ b) = fixedInteger x f.
Proof.
  unfold toFixed.
  destruct (decimalDigits_spec (fixedInteger x f) (fixedInteger_nonneg x f))
    as (Hval & Hrange & Hlen).
  set (m0 := decimalDigits (fixedInteger x f)) in *.
  set (m := if (f =? 0)%nat then m0 else repeat 0%Z (S f - length m0) ++ m0).
  assert (Hm : Forall (fun d => 0 <= d <= 9)%Z m /\ (S f <= length m)%nat /\
               digitsValue m = fixedInteger x f).
  { unfold m. destruct (f =? 0)%nat eqn:Hf.
    - apply Nat.eqb_eq in Hf. subst f. done.
    - split; [|split].
      + apply Forall_app. split; [|exact Hrange].
        apply List.Forall_forall. intros d Hd. apply repeat_spec in Hd. lia.
      + rewrite length_app, repeat_length. lia.
      + by rewrite digitsValue_zeros. }
  destruct Hm as (Hmr & Hml & Hmv).
  exists (take (length m - f) m), (drop (length m - f) m).
  split; [reflexivity|].
  split; [by apply Forall_take|]. split; [by apply Forall_drop|].
  split; [rewrite length_take; lia|]. split; [rewrite length_drop; lia|].
  split.
  - intros Hf. apply Nat.eqb_eq in Hf. subst f.
    rewrite Nat.sub_0_r. apply drop_all.
  - by rewrite take_drop.
Qed.

Lemma parseFloat_unsigned (d : Z) (r : string) :
  (0 <= d <= 9)%Z ->
  parseFloat (String (digitChar d) r) =
  default NaN (unsignedDecimal (String (digitChar d) r)).
Proof.
  intros Hd.
  destruct (digit_cases d Hd) as [->|[->|[->|[->|[->|[->|[->|[->|[->| ->]]]]]]]]];
    reflexivity.
Qed.

Lemma parseFloat_negative (u : string) :
  parseFloat (String "-" u) = default NaN (negate <$> unsignedDecimal u).
Proof. reflexivity. Qed.

Lemma fixedValue_close (x : Q) (f : nat) :
  Qabs (fixedValue x f - x) <= (1 / 2) / inject_Z (10 ^ Z.of_nat f).
Proof.
  unfold fixedValue.
  pose proof (Qfloor_le (Qabs x * inject_Z (10 ^ Z.of_nat f) + 1 / 2)) as Hlo.
  pose proof (Qlt_floor (Qabs x * inject_Z (10 ^ Z.of_nat f) + 1 / 2)) as Hhi.
  fold (fixedInteger x f) in Hlo, Hhi. rewrite inject_Z_plus in Hhi.
  assert (HP : 0 < inject_Z (10 ^ Z.of_nat f)).
  { change 0 with (inject_Z 0). rewrite <- Zlt_Qlt. lia. }
  assert (Hh : 1 / 2 == 0.5) by reflexivity.
  revert Hlo Hhi HP Hh.
  generalize (inject_Z (fixedInteger x f)) (inject_Z (10 ^ Z.of_nat f)) (1 / 2).
  intros n P h Hlo Hhi HP Hh. change (inject_Z 1) with 1 in Hhi.
  assert (Hv : Qabs (n / P - Qabs x) <= h / P).
  { assert (E1 : - (h / P) == (- h) / P) by (field; lra).
    assert (E2 : (n / P - Qabs x) * P == n - Qabs x * P) by (field; lra).
    apply Qabs_Qle_condition. split.
    - rewrite E1. apply Qle_shift_div_r; [exact HP|]. rewrite E2. lra.
    - apply Qle_shift_div_l; [exact HP|]. rewrite E2. lra. }
  destruct (Qlt_le_dec x 0) as [Hneg|Hpos].
  - rewrite (Qabs_neg x) in Hv by lra.
    assert (E3 : - (n / P) - x == - (n / P - - x)) by ring.
    by rewrite E3, Qabs_opp.
  - by rewrite (Qabs_pos x) in Hv.
Qed.

(** The text [toFixed x f] of the model reads back, by [parseFloat], as
    the number it denotes, which is [x] rounded to [f] decimals. Used
    below with the four decimals of [handleMapClick]. *)
Lemma toFixed_parseFloat (x : Q) (f : nat) :
  exists q,
    parseFloat (toFixed x f) = Finite q /\
    q == fixedValue x f /\
    Qabs (q - x) <= (1 / 2) / inject_Z (10 ^ Z.of_nat f).
Proof.
  destruct (toFixed_shape x f) as (a & b & -> & Ha & Hb & Hla & Hlb & Hb0 & Hval).
  destruct (unsignedDecimal_digits a b (negb (f =? 0)%nat) Ha Hb Hla) as (q & Hq & Hqv).
  { intros Hf. apply Hb0. by destruct (f =? 0)%nat. }
  assert (Htail : (if (f =? 0)%nat then EmptyString else "." +:+ digitString b) =
                  (if negb (f =? 0)%nat then "." +:+ digitString b else EmptyString))
    by (by destruct (f =? 0)%nat).
  rewrite Htail. rewrite Hval, Hlb in Hqv.
  destruct a as [|d a]; [simpl in Hla; lia|].
  assert (Hd : (0 <= d <= 9)%Z) by (by inversion Ha).
  assert (Hgoal : forall q', q' == fixedValue x f ->
            q' == fixedValue x f /\ Qabs (q' - x) <= 1 / 2 / inject_Z (10 ^ Z.of_nat f)).
  { intros q' Hq'. split; [exact Hq'|]. rewrite Hq'. apply fixedValue_close. }
  unfold fixedValue in Hgoal |- *.
  destruct (Qlt_le_dec x 0) as [Hneg|Hpos].
  - change ("-" +:+ ?s) with (String "-" s). rewrite parseFloat_negative, Hq.
    exists (- q). split; [reflexivity|]. apply Hgoal. by rewrite Hqv.
  - rewrite append_nil_l in *. cbn [digitString] in *. rewrite append_cons in *.
    rewrite parseFloat_unsigned, Hq by exact Hd.
    exists q. split; [reflexivity|]. by apply Hgoal.
Qed.

(** ** Splitting and trimming *)

Lemma allChars_app (P : ascii -> bool) (s t : string) :
  allChars P (s +:+ t) = allChars P s && allChars P t.
Proof.
  induction s as [|c s IH]; [reflexivity|].
  rewrite append_cons. cbn [allChars]. by rewrite IH, andb_assoc.
Qed.

Lemma allChars_impl (P Q : ascii -> bool) (s : string) :
  (forall c, P c = true -> Q c = true) -> allChars P s = true -> allChars Q s = true.
Proof.
  intros HPQ. induction s as [|c s IH]; [done|]. cbn [allChars].
  intros [Hc Hs]%andb_prop. by rewrite (HPQ c Hc), IH.
Qed.

Lemma allChars_digitString (P : ascii -> bool) (ds : list Z) :
  (forall d, (0 <= d <= 9)%Z -> P (digitChar d) = true) ->
  Forall (fun d => 0 <= d <= 9)%Z ds -> allChars P (digitString ds) = true.
Proof.
  intros HP. induction 1 as [|d ds Hd Hds IH]; [reflexivity|].
  cbn [digitString allChars]. by rewrite HP, IH.
Qed.

Lemma split_no_separator (sep : ascii) (s : string) :
  allChars (fun c => negb (Ascii.eqb c sep)) s = true -> split sep s = [s].
Proof.
  induction s as [|c s IH]; [reflexivity|]. cbn [allChars split].
  intros [Hc Hs]%andb_prop. apply negb_true_iff in Hc. by rewrite Hc, IH.
Qed.

Lemma split_at_separator (sep : ascii) (s t : string) :
  allChars (fun c => negb (Ascii.eqb c sep)) s = true ->
  split sep (s +:+ String sep t) = s :: split sep t.
Proof.
  induction s as [|c s IH].
  - intros _. rewrite append_nil_l. cbn [split]. by rewrite Ascii.eqb_refl.
  - cbn [allChars]. intros [Hc Hs]%andb_prop. apply negb_true_iff in Hc.
    rewrite append_cons. cbn [split]. by rewrite Hc, IH.
Qed.

Lemma split_length (sep : ascii) (s : string) :
  (1 <= length (split sep s))%nat /\
  (length (split sep s) = 1%nat <-> allChars (fun c => negb (Ascii.eqb c sep)) s = true).
Proof.
  induction s as [|c s (IH1 & IH2)]; [by split|]. cbn [split allChars].
  destruct (Ascii.eqb c sep); cbn [negb andb].
  - cbn [length]. split; [lia|]. split; [lia | discriminate].
  - destruct (split sep s) as [|h t]; [simpl in IH1; lia|]. cbn [length] in *.
    split; [lia | exact IH2].
Qed.

Lemma trimStart_head (s : string) :
  match s with String c _ => isWhiteSpace c = false | EmptyString => True end ->
  trimStart s = s.
Proof. destruct s as [|c s]; [done|]. cbn [trimStart]. by intros ->. Qed.

Lemma allChars_head (P : ascii -> bool) (s : string) :
  allChars (fun c => negb (P c)) s = true ->
  match s with String c _ => P c = false | EmptyString => True end.
Proof.
  destruct s as [|c s]; [done|]. cbn [allChars].
  intros [Hc _]%andb_prop. by apply negb_true_iff.
Qed.

Lemma allChars_rev_app (P : ascii -> bool) (s acc : string) :
  allChars P (String.rev_app s acc) = allChars P s && allChars P acc.
Proof.
  revert acc. induction s as [|c s IH]; intros acc; [reflexivity|].
  cbn [String.rev_app allChars]. rewrite IH. cbn [allChars].
  destruct (P c), (allChars P s), (allChars P acc); reflexivity.
Qed.

Lemma rev_app_rev_app (s a b : string) :
  String.rev_app (String.rev_app s a) b = String.rev_app a (s +:+ b).
Proof.
  revert a b. induction s as [|c s IH]; intros a b; [reflexivity|].
  cbn [String.rev_app]. rewrite IH. cbn [String.rev_app]. by rewrite append_cons.
Qed.

Lemma rev_rev (s : string) : String.rev (String.rev s) = s.
Proof.
  unfold String.rev. rewrite rev_app_rev_app. cbn [String.rev_app].
  apply string_app_empty.
Qed.

(** [trim] leaves a string without white space as it is, and removes a
    space in front of it. *)
Lemma trim_clean (s : string) :
  allChars (fun c => negb (isWhiteSpace c)) s = true ->
  trim s = s /\ trim (String " " s) = s.
Proof.
  intros Hs.
  assert (Ht : trim s = s).
  { unfold trim. rewrite (trimStart_head s) by (by apply allChars_head).
    rewrite trimStart_head; [apply rev_rev|].
    apply allChars_head. unfold String.rev. by rewrite allChars_rev_app, Hs. }
  split; [exact Ht|]. exact Ht.
Qed.

Lemma toFixed_clean (x : Q) (f : nat) :
  allChars (fun c => negb (Ascii.eqb c ",") && negb (isWhiteSpace c)) (toFixed x f) = true /\
  String.eqb (toFixed x f) EmptyString = false.
Proof.
  destruct (toFixed_shape x f) as (a & b & -> & Ha & Hb & Hla & _).
  assert (Hdigit : forall d, (0 <= d <= 9)%Z ->
            negb (Ascii.eqb (digitChar d) ",") && negb (isWhiteSpace (digitChar d)) = true).
  { intros d Hd.
    destruct (digit_cases d Hd) as [->|[->|[->|[->|[->|[->|[->|[->|[->| ->]]]]]]]]];
      reflexivity. }
  split.
  - rewrite !allChars_app, !(allChars_digitString _ _ Hdigit) by done.
    destruct (Qlt_le_dec x 0), (f =? 0)%nat; try reflexivity;
      rewrite ?append_cons, ?append_nil_l; cbn [allChars];
      rewrite ?(allChars_digitString _ _ Hdigit) by done; reflexivity.
  - destruct a as [|d a]; [simpl in Hla; lia|].
    destruct (Qlt_le_dec x 0); reflexivity.
Qed.

(** ** From a click on the map to the route request *)

Lemma parseCoordinate_coordinateText (lat lng : Q) :
  exists a b,
    parseCoordinate (coordinateText lat lng) =
      {| coord_lat := Some (Finite a); coord_lon := Some (Finite b) |} /\
    (a == fixedValue lat 4 /\ Qabs (a - lat) <= 0.00005) /\
    (b == fixedValue lng 4 /\ Qabs (b - lng) <= 0.00005).
Proof.
  destruct (toFixed_parseFloat lat 4) as (a & Ha & Hav & Hac).
  destruct (toFixed_parseFloat lng 4) as (b & Hb & Hbv & Hbc).
  destruct (toFixed_clean lat 4) as [Hlat _], (toFixed_clean lng 4) as [Hlng _].
  assert (H4 : 1 / 2 / inject_Z (10 ^ Z.of_nat 4) == 0.00005) by reflexivity.
  rewrite H4 in Hac, Hbc.
  exists a, b. split; [|by repeat split].
  unfold parseCoordinate, coordinateText.
  change (", " +:+ toFixed lng 4) with (String "," (String " " (toFixed lng 4))).
  rewrite split_at_separator
    by (eapply allChars_impl; [|exact Hlat]; by intros c [Hc _]%andb_prop).
  rewrite split_no_separator.
  - cbn [map lookup list_lookup].
    assert (Hws : forall x, allChars (fun c => negb (isWhiteSpace c)) (toFixed x 4) = true).
    { intros x. destruct (toFixed_clean x 4) as [Hx _].
      eapply allChars_impl; [|exact Hx]. by intros c [_ Hc]%andb_prop. }
    destruct (trim_clean _ (Hws lat)) as [-> _], (trim_clean _ (Hws lng)) as [_ ->].
    by rewrite Ha, Hb.
  - cbn [allChars]. eapply allChars_impl; [|exact Hlng]. by intros c [Hc _]%andb_prop.
Qed.

(** X5: Choosing the start and then the end on the map and asking for the
    route sends a request whose four coordinates are the clicked ones
    rounded to four decimals, each within 0.00005 of the click, while
    the two markers stand on the exact clicks. *)
Theorem click_then_calculateRoute (p0 : RoutePanel) (lat lng lat' lng' : Q) :
  let p := handleMapClick lat' lng' (focusInput SelectEnd
             (handleMapClick lat lng (focusInput SelectStart p0))) in
  markerStart p = Some (lat, lng) /\ markerEnd p = Some (lat', lng') /\
  exists a b c d,
    calculateRoute (startPoint p) (endPoint p) =
      Some {| request_start := {| coord_lat := Some (Finite a); coord_lon := Some (Finite b) |};
              request_end := {| coord_lat := Some (Finite c); coord_lon := Some (Finite d) |};
              request_vehicle_type := "ambulance";
              request_urgency := 0.8;
              request_method := "astar" |} /\
    (a == fixedValue lat 4 /\ Qabs (a - lat) <= 0.00005) /\
    (b == fixedValue lng 4 /\ Qabs (b - lng) <= 0.00005) /\
    (c == fixedValue lat' 4 /\ Qabs (c - lat') <= 0.00005) /\
    (d == fixedValue lng' 4 /\ Qabs (d - lng') <= 0.00005).
Proof.
  cbn zeta. cbn [handleMapClick focusInput selecting markerStart markerEnd startPoint endPoint].
  split; [reflexivity|]. split; [reflexivity|].
  destruct (parseCoordinate_coordinateText lat lng) as (a & b & Hs & Ha & Hb).
  destruct (parseCoordinate_coordinateText lat' lng') as (c & d & He & Hc & Hd).
  exists a, b, c, d. split; [|done].
  unfold calculateRoute. rewrite Hs, He.
  assert (Hne : forall x y, String.eqb (coordinateText x y) EmptyString = false).
  { intros x y. unfold coordinateText. destruct (toFixed_clean x 4) as [_ Hx].
    destruct (toFixed x 4); [discriminate Hx | reflexivity]. }
  by rewrite !Hne.
Qed.

(** A click on the map changes nothing while no input field was ever
    focused; with the focus on one field it leaves the marker and the
    text of the other field, the route and the focus as they are. *)
Lemma handleMapClick_frame (p : RoutePanel) (lat lng : Q) :
  (selecting p = None -> handleMapClick lat lng p = p) /\
  (selecting p = Some SelectStart ->
     markerEnd (handleMapClick lat lng p) = markerEnd p /\
     endPoint (handleMapClick lat lng p) = endPoint p) /\
  (selecting p = Some SelectEnd ->
     markerStart (handleMapClick lat lng p) = markerStart p /\
     startPoint (handleMapClick lat lng p) = startPoint p) /\
  selecting (handleMapClick lat lng p) = selecting p /\
  routeLayer (handleMapClick lat lng p) = routeLayer p.
Proof.
  destruct p as [sel ms me sp ep rl ri]. unfold handleMapClick.
  cbn [selecting markerStart markerEnd startPoint endPoint routeLayer].
  destruct sel as [[]|]; repeat split; try discriminate; reflexivity.
Qed.

(** X6: [clearRoute] empties both input fields, takes both markers and
    the route off the map, hides the route panel and leaves the focus
    where it was. After it [calculateRoute] sends nothing, and a single
    click on the map is not enough for it to send a request again: the
    click fills at most the focused field and the other one stays
    empty. Clearing twice is clearing once. *)
Theorem clearRoute_then_calculateRoute (p : RoutePanel) (lat lng : Q) :
  let c := clearRoute p in
  let c1 := handleMapClick lat lng c in
  startPoint c = EmptyString /\ endPoint c = EmptyString /\
  markerStart c = None /\ markerEnd c = None /\ routeLayer c = [] /\
  routeInfoShown c = false /\ selecting c = selecting p /\
  calculateRoute (startPoint c) (endPoint c) = None /\
  (startPoint c1 = EmptyString \/ endPoint c1 = EmptyString) /\
  calculateRoute (startPoint c1) (endPoint c1) = None /\
  clearRoute c = c.
Proof.
  cbn zeta. repeat split.
  - unfold handleMapClick, clearRoute. cbn [selecting].
    destruct (selecting p) as [[]|]; cbn [startPoint endPoint]; auto.
  - unfold handleMapClick, clearRoute. cbn [selecting].
    destruct (selecting p) as [[]|]; cbn [startPoint endPoint]; unfold calculateRoute.
    + by rewrite orb_true_r.
    + reflexivity.
    + reflexivity.
Qed.

(** X7: Along any sequence of focus changes, clicks on the map and clearings
    that starts from a cleared panel, a marker stands on the map exactly
    when its input field is not empty. *)
Theorem marker_iff_input (events : list PanelEvent) (p : RoutePanel) :
  let q := fold_left panelStep events (clearRoute p) in
  (is_Some (markerStart q) <-> startPoint q <> EmptyString) /\
  (is_Some (markerEnd q) <-> endPoint q <> EmptyString).
Proof.
  cbn zeta.
  assert (Hinv : forall q,
            ((is_Some (markerStart q) <-> startPoint q <> EmptyString) /\
             (is_Some (markerEnd q) <-> endPoint q <> EmptyString)) ->
            forall ev,
              (is_Some (markerStart (panelStep q ev)) <-> startPoint (panelStep q ev) <> EmptyString) /\
              (is_Some (markerEnd (panelStep q ev)) <-> endPoint (panelStep q ev) <> EmptyString)).
  { intros q [H1 H2] ev.
    assert (Hne : forall x y, coordinateText x y <> EmptyString).
    { intros x y E. unfold coordinateText in E. destruct (toFixed_clean x 4) as [_ Hx].
      destruct (toFixed x 4); [discriminate Hx | discriminate E]. }
    destruct ev as [which|lat lng|]; cbn [panelStep].
    - done.
    - unfold handleMapClick. destruct (selecting q) as [[]|];
        cbn [markerStart markerEnd startPoint endPoint]; split; try done;
        split; eauto.
    - cbn [clearRoute markerStart markerEnd startPoint endPoint].
      split; split; try done; by intros [? ?]. }
  generalize (clearRoute p), (conj (A := is_Some (markerStart (clearRoute p)) <->
                                         startPoint (clearRoute p) <> EmptyString)
                                   (B := is_Some (markerEnd (clearRoute p)) <->
                                         endPoint (clearRoute p) <> EmptyString)
                                   ltac:(split; [by intros [? ?] | done])
                                   ltac:(split; [by intros [? ?] | done])).
  induction events as [|ev events IH]; intros q Hq; [exact Hq|].
  cbn [fold_left]. apply IH, Hinv, Hq.
Qed.

(** ** Inputs without a comma *)

(** X8: The latitude of a parsed input is never undefined, and its longitude
    is undefined exactly when the input has no comma; what follows a
    second comma is ignored. *)
Theorem parseCoordinate_longitude (input : string) :
  is_Some (coord_lat (parseCoordinate input)) /\
  (coord_lon (parseCoordinate input) = None <->
   allChars (fun c => negb (Ascii.eqb c ",")) input = true) /\
  (forall a b rest,
     allChars (fun c => negb (Ascii.eqb c ",")) a = true ->
     allChars (fun c => negb (Ascii.eqb c ",")) b = true ->
     parseCoordinate (a +:+ String "," (b +:+ String "," rest)) =
     parseCoordinate (a +:+ String "," b)).
Proof.
  unfold parseCoordinate. cbn [coord_lat coord_lon].
  destruct (split_length "," input) as [Hlen Hone].
  split; [|split].
  - destruct (split "," input) as [|h t]; [simpl in Hlen; lia|]. by eexists.
  - rewrite <- Hone.
    destruct (split "," input) as [|h [|h' t]]; cbn [map length lookup list_lookup].
    + simpl in Hlen. lia.
    + done.
    + split; [discriminate | lia].
  - intros a b rest Ha Hb.
    rewrite (split_at_separator "," a _ Ha), (split_at_separator "," b rest Hb).
    rewrite (split_at_separator "," a b Ha), (split_no_separator "," b Hb).
    reflexivity.
Qed.

(** ** Drawing a route *)

(** X9: [drawRoute] empties the route layer and draws nothing for a route
    without [path_coords] or with fewer than two points; otherwise it
    adds two lines, the glow (weight 12) under the route (weight 5), both
    through all the points in order. The demo route is always drawn: two
    lines of six points. *)
Theorem drawRoute_layers (path : option (list LatLon)) :
  (default 0%nat (length <$> path) < 2 -> drawRoute path = [])%nat /\
  (forall cs, path = Some cs -> (2 <= length cs)%nat ->
     exists glow line,
       drawRoute path = [glow; line] /\
       latlngs glow = map (fun c => (lat c, lon c)) cs /\
       latlngs line = latlngs glow /\
       weight glow = 12%Z /\ weight line = 5%Z) /\
  (forall a b c d g,
     Forall (fun l => length (latlngs l) = 6%nat)
            (drawRoute (Some (path_coords (fst (createDemoRoute a b c d g))))) /\
     length (drawRoute (Some (path_coords (fst (createDemoRoute a b c d g))))) = 2%nat).
Proof.
  split; [|split].
  - destruct path as [cs|]; [|done]. cbn [drawRoute]. intros Hlt.
    destruct (length cs <? 2)%nat eqn:E; [done|].
    apply Nat.ltb_ge in E. simpl in Hlt. lia.
  - intros cs -> Hlen. cbn [drawRoute].
    apply Nat.ltb_ge in Hlen. rewrite Hlen. by eexists _, _.
  - intros a b c d g. split; [repeat constructor | reflexivity].
Qed.

(** ** The damage map *)

(** X10: the object [damageMap] after the loop over [data.edges]. For a
    key other than [__proto__] the last entry wins: an entry added at the
    end replaces what its key had and leaves the other keys alone. An
    entry whose identifier is [__proto__] stores nothing, and reading
    [__proto__] always gives the prototype, never a score. A key no entry
    has reads as a member of [Object.prototype] when it is one of its
    names, and as [undefined] otherwise. *)
Theorem buildDamageMap_last_wins (entries : list DamageEntry) (en : DamageEntry) (k : string) :
  (propertyKey (entry_id en) <> "__proto__" ->
     readProperty (buildDamageMap (entries ++ [en])) (propertyKey (entry_id en))
     = Own (entry_damage en)) /\
  (k <> propertyKey (entry_id en) ->
     readProperty (buildDamageMap (entries ++ [en])) k = readProperty (buildDamageMap entries) k) /\
  (propertyKey (entry_id en) = "__proto__" ->
     buildDamageMap (entries ++ [en]) = buildDamageMap entries) /\
  readProperty (buildDamageMap entries) "__proto__" = Inherited /\
  (Forall (fun e => propertyKey (entry_id e) <> k) entries ->
     readProperty (buildDamageMap entries) k = if inheritedKey k then Inherited else Undefined).
Proof.
  assert (Hsnoc : buildDamageMap (entries ++ [en]) =
                  storeProperty (buildDamageMap entries) (propertyKey (entry_id en))
                                (entry_damage en)).
  { unfold buildDamageMap. by rewrite fold_left_app. }
  rewrite Hsnoc. unfold readProperty, storeProperty.
  split; [|split; [|split; [|split]]].
  - intros Hk. apply String.eqb_neq in Hk. rewrite Hk. by rewrite lookup_insert_eq.
  - intros Hk. destruct (String.eqb _ _); [reflexivity|]. by rewrite lookup_insert_ne.
  - intros ->. reflexivity.
  - by rewrite buildDamageMap_proto.
  - intros Hk. clear Hsnoc.
    assert (Hnone : buildDamageMap entries !! k = None); [|by rewrite Hnone].
    unfold buildDamageMap.
    assert (Hgen : forall m : gmap string Q, m !! k = None ->
              fold_left (fun m e => storeProperty m (propertyKey (entry_id e)) (entry_damage e))
                        entries m !! k = None); [|by apply Hgen].
    induction Hk as [|e es He Hes IH]; intros m Hm; [exact Hm|].
    cbn [fold_left]. apply IH. unfold storeProperty.
    destruct (String.eqb _ _); [exact Hm|]. by rewrite lookup_insert_ne.
Qed.

(** X11: when the statements that follow the update of the edges do not
    throw and no edge is looked up under the name of a member of
    [Object.prototype], [loadDamageMap] gives an edge whose key the
    damage map sends to a score other than 0 exactly that score,
    whatever the generator returns; the edge keeps its identifier and
    its two ends, and the counters show the numbers of [data.stats].
    When one of those statements throws, the score is lost: the edge
    gets [Math.random() * 0.6], and the counters stay as they were. *)
Theorem loadDamageMap_delivers (fmt : Q -> string) (data : DamageMapData)
    (s : AppState) (g : RNG) (i : nat) (e : Edge) (d : Q) :
  in_unit_interval g ->
  edges s !! i = Some e ->
  buildDamageMap (data_edges data) !! edgeKey fmt e = Some d ->
  ~ d == 0 ->
  (forall stats,
     zonesAndStats data = Some stats ->
     plainKeys fmt s = true ->
     exists s',
       fst (loadDamageMap fmt (Some data) s g) = Some s' /\
       edges s' !! i = Some (set_damage e d) /\
       damagedRoads s' = damaged_edges stats /\
       damagedBridges s' = critical_edges stats /\
       currentScenario s' = currentScenario s) /\
  (zonesAndStats data = None ->
   exists s' r,
     fst (loadDamageMap fmt (Some data) s g) = Some s' /\
     0 <= r < 1 /\
     edges s' !! i = Some (set_damage e (r * 0.6)) /\
     damagedRoads s' = damagedRoads s /\
     damagedBridges s' = damagedBridges s /\
     currentScenario s' = currentScenario s).
Proof.
  intros Hg Hi Hk Hd. split.
  - intros stats Hstats Hplain.
    destruct (loadDamageMap_numbers fmt (Some data) s g Hplain) as [s' Hs'].
    exists s'. split; [exact Hs'|].
    revert Hs'. unfold loadDamageMap. rewrite bind_eq, Hstats. cbn [ret fst].
    destruct (forEach_loadedDamage fmt (buildDamageMap (data_edges data))
                (fun x y =>
                   forall d', buildDamageMap (data_edges data) !! edgeKey fmt x = Some d' ->
                              ~ d' == 0 -> y = set_damage x d')
                (fun _ => True) (fun _ => True)) with (l := edges s) (g := g) as [H2 _];
      [|done|].
    { intros x g' _. split; [|done]. rewrite loadedDamage_cases. unfold readProperty.
      destruct (buildDamageMap (data_edges data) !! edgeKey fmt x) as [d0|];
        [|by destruct (inheritedKey _)].
      destruct (Qeq_bool d0 0) eqn:E; cbn [fst].
      - intros d' [= <-] Hne. apply Qeq_bool_iff in E. contradiction.
      - by intros d' [= <-] _. }
    destruct (allNumbers _) as [es|]; [|discriminate].
    intros [= <-]. cbn [edges damagedRoads damagedBridges currentScenario].
    destruct (Forall2_lookup_l _ _ _ _ _ H2 Hi) as (y & Hy & Hxy).
    by rewrite Hy, (Hxy d Hk Hd).
  - intros Hstats. unfold loadDamageMap. rewrite bind_eq, Hstats, bind_eq. cbn [ret fst].
    set (g1 := snd (forEach _ (edges s) g)).
    assert (Hg1 : in_unit_interval g1).
    { subst g1.
      destruct (forEach_loadedDamage fmt (buildDamageMap (data_edges data))
                  (fun _ _ => True) (fun _ => True) in_unit_interval)
        with (l := edges s) (g := g) as [_ Hg1]; [|exact Hg|exact Hg1].
      intros x g' Hg'. split; [by destruct (fst _) | by apply loadedDamage_unit]. }
    assert (H2 : Forall2 (fun x y => exists r, 0 <= r < 1 /\ y = set_damage x (r * 0.6))
                         (edges s) (edges (fst (applyRandomDamage s g1)))).
    { unfold applyRandomDamage. rewrite bind_eq. cbn [ret fst edges].
      apply (forEach_Forall2 _ _ in_unit_interval); [|exact Hg1].
      intros x g' Hg'. split; [|exact Hg'].
      exists (draws g' (pos g')). split; [apply Hg' | reflexivity]. }
    destruct (Forall2_lookup_l _ _ _ _ _ H2 Hi) as (y & Hy & r & Hr & ->).
    exists (fst (applyRandomDamage s g1)), r.
    split; [reflexivity|]. split; [exact Hr|]. split; [exact Hy|].
    unfold applyRandomDamage. rewrite bind_eq. done.
Qed.

Lemma loadDamageMap_delivers_witness :
  let entries := [ {| entry_id := IdStr "41_41"; entry_damage := 0.4 |};
                   {| entry_id := IdStr "41_41"; entry_damage := 0.9 |} ] in
  let stats := {| damaged_edges := 1; critical_edges := 1 |} in
  let data := {| data_edges := entries; data_zones := Some []; data_stats := Some stats |} in
  let broken := {| data_edges := entries; data_zones := None; data_stats := Some stats |} in
  let s := loadDemoData initialState in
  let e := {| id := None; from := gridNode 0 0;
              to := {| lat := lat (gridNode 0 0); lon := lon (gridNode 0 0) + 0.01 |};
              damage := 0 |} in
  in_unit_interval (constant 0.5) /\
  edges s !! 0%nat = Some e /\
  buildDamageMap entries !! edgeKey decimalString e = Some 0.9 /\
  ~ 0.9 == 0 /\
  zonesAndStats data = Some stats /\
  plainKeys decimalString s = true /\
  (exists s',
     fst (loadDamageMap decimalString (Some data) s (constant 0.5)) = Some s' /\
     edges s' !! 0%nat = Some (set_damage e 0.9) /\
     damagedRoads s' = 1%Z /\ damagedBridges s' = 1%Z /\
     currentScenario s' = None) /\
  zonesAndStats broken = None /\
  (exists s' r,
     fst (loadDamageMap decimalString (Some broken) s (constant 0.5)) = Some s' /\
     0 <= r < 1 /\
     edges s' !! 0%nat = Some (set_damage e (r * 0.6)) /\
     damagedRoads s' = 0%Z /\ damagedBridges s' = 0%Z /\
     currentScenario s' = None).
Proof.
  intros entries stats data broken s e.
  assert (Hg : in_unit_interval (constant 0.5)) by (intros n; simpl; lra).
  assert (Hi : edges s !! 0%nat = Some e) by reflexivity.
  assert (Hk : buildDamageMap entries !! edgeKey decimalString e = Some 0.9)
    by (vm_compute; reflexivity).
  assert (Hd : ~ 0.9 == 0) by (intros H; discriminate H).
  assert (Hplain : plainKeys decimalString s = true) by (vm_compute; reflexivity).
  split; [exact Hg|]. split; [exact Hi|]. split; [exact Hk|]. split; [exact Hd|].
  split; [reflexivity|]. split; [exact Hplain|].
  split.
  - exact (proj1 (loadDamageMap_delivers decimalString data s (constant 0.5) 0 e 0.9
                    Hg Hi Hk Hd) stats eq_refl Hplain).
  - split; [reflexivity|].
    exact (proj2 (loadDamageMap_delivers decimalString broken s (constant 0.5) 0 e 0.9
                    Hg Hi Hk Hd) eq_refl).
Defined.

(** ** How many random numbers an operation draws *)

Lemma forEach_position {A B} (f : A -> M B) (w : A -> nat) :
  (forall x g, draws (snd (f x g)) = draws g /\ pos (snd (f x g)) = (pos g + w x)%nat) ->
  forall l g,
    draws (snd (forEach f l g)) = draws g /\
    pos (snd (forEach f l g)) = (pos g + sum_list (map w l))%nat.
Proof.
  intros Hf l. induction l as [|x l IH]; intros g.
  - simpl. split; [reflexivity | lia].
  - rewrite forEach_cons. cbn [snd map].
    destruct (Hf x g) as [Hd Hp], (IH (snd (f x g))) as [Hd' Hp'].
    split; [congruence|]. rewrite Hp', Hp. simpl. lia.
Qed.

(** X12: [applyDemoScenario] draws exactly two random numbers per edge,
    whether the edge is damaged or not, and [applyRandomDamage] exactly
    one; [loadDamageMap] draws one for every edge whose key reads as
    [undefined] or as 0 in the damage map and none for the others, and,
    when a statement after the update of the edges throws, one more for
    every edge. *)
Theorem random_numbers_drawn (s : AppState) (g : RNG) :
  (forall scenario,
     pos (snd (applyDemoScenario scenario s g)) = (pos g + 2 * length (edges s))%nat) /\
  pos (snd (applyRandomDamage s g)) = (pos g + length (edges s))%nat /\
  (forall fmt data,
     pos (snd (loadDamageMap fmt (Some data) s g)) =
     (pos g
      + length (List.filter
                  (fun e => match readProperty (buildDamageMap (data_edges data))
                                               (edgeKey fmt e) with
                            | Own d => Qeq_bool d 0
                            | Inherited => false
                            | Undefined => true
                            end) (edges s))
      + match zonesAndStats data with
        | Some _ => 0
        | None => length (edges s)
        end)%nat).
Proof.
  assert (Hsum : forall (P : Edge -> bool) l,
            sum_list (map (fun e => if P e then 1 else 0)%nat l) = length (List.filter P l)).
  { intros P l. induction l as [|e l IH]; [reflexivity|].
    cbn [map List.filter]. destruct (P e); simpl in *; lia. }
  assert (Hone : forall l : list Edge, sum_list (map (fun _ => 1%nat) l) = length l).
  { intros l. induction l as [|e l IH]; simpl; lia. }
  assert (Hrandom : forall s' g',
            pos (snd (applyRandomDamage s' g')) = (pos g' + length (edges s'))%nat).
  { intros s' g'. unfold applyRandomDamage. rewrite bind_eq. cbn [snd ret].
    destruct (forEach_position randomDamage (fun _ => 1%nat)) with
      (l := edges s') (g := g') as [_ Hp].
    { intros x g''. cbn. split; [reflexivity | lia]. }
    by rewrite Hp, Hone. }
  split; [|split].
  - intros scenario. unfold applyDemoScenario. rewrite bind_eq. cbn [snd ret].
    destruct (forEach_position (demoDamage (damageRate scenario)) (fun _ => 2%nat)) with
      (l := edges s) (g := g) as [_ Hp].
    { intros x g'. rewrite demoDamage_score. cbn [snd draws pos]. split; [reflexivity | lia]. }
    rewrite Hp. f_equal. clear. induction (edges s) as [|e l IH]; simpl; lia.
  - apply Hrandom.
  - intros fmt data. unfold loadDamageMap. rewrite bind_eq.
    set (needs := fun e => match readProperty (buildDamageMap (data_edges data))
                                              (edgeKey fmt e) with
                           | Own d => Qeq_bool d 0
                           | Inherited => false
                           | Undefined => true
                           end).
    destruct (forEach_position (loadedDamage fmt (buildDamageMap (data_edges data)))
                (fun e => if needs e then 1 else 0)%nat) with
      (l := edges s) (g := g) as [_ Hp].
    { intros x g'. rewrite loadedDamage_cases. unfold needs.
      destruct (readProperty _ _) as [d| |]; [destruct (Qeq_bool d 0)| |]; cbn;
        split; try reflexivity; lia. }
    rewrite Hsum in Hp.
    destruct (zonesAndStats data) as [stats|].
    + cbn [snd ret]. rewrite Hp. lia.
    + rewrite bind_eq. cbn [snd ret]. rewrite Hrandom, Hp. reflexivity.
Qed.

(** ** The scenario generator of the roadmap *)

Lemma scenario_entry_unit (severity : Q) (e : Roadmap.Node * Roadmap.Node * Roadmap.EdgeData)
    (g : RNG) :
  in_unit_interval g -> in_unit_interval (snd (Roadmap.scenario_entry severity e g)).
Proof.
  intros Hg. destruct e as [[u v] data].
  unfold Roadmap.scenario_entry, Roadmap.random_uniform, bind, ret, Math_random.
  cbn [fst snd]. destruct (Qlt_le_dec _ _); exact Hg.
Qed.

Lemma omap_entries {A B} (R : A -> option B -> Prop) (S : list A -> list B -> Prop)
    (l : list A) (k : list (option B)) :
  S [] [] ->
  (forall x xs ys, R x None -> S xs ys -> S (x :: xs) ys) ->
  (forall x y xs ys, R x (Some y) -> S xs ys -> S (x :: xs) (y :: ys)) ->
  Forall2 R l k -> S l (omap (fun o => o) k).
Proof.
  intros Hnil Hskip Hkeep. induction 1 as [|x o l k Hxo Hlk IH]; [exact Hnil|].
  destruct o as [y|]; cbn [omap list_omap]; [by apply Hkeep | by apply Hskip].
Qed.

(** X13: Every entry of [generate_scenario] is an edge of the graph with a
    score of at least 0.3 and below 1.0, and the entries follow the order
    of the edges of the graph, each edge at most once. *)
Theorem generate_scenario_entries (graph : Roadmap.Graph) (severity : Q) (g : RNG) :
  in_unit_interval g ->
  let damaged := fst (Roadmap.generate_scenario graph severity g) in
  Forall (fun '(u, v, d) => 0.3 <= d < 1) damaged /\
  sublist (map (fun '(u, v, _) => (u, v)) damaged)
          (map (fun '(u, v, _) => (u, v)) (Roadmap.graph_edges graph)) /\
  (length damaged <= length (Roadmap.graph_edges graph))%nat.
Proof.
  intros Hg. unfold Roadmap.generate_scenario. rewrite bind_eq. cbn [fst ret].
  assert (H2 : Forall2 (fun e o => match o with
                                   | Some (u, v, d) => (u, v) = fst e /\ 0.3 <= d < 1
                                   | None => True
                                   end)
                 (Roadmap.graph_edges graph)
                 (fst (forEach (Roadmap.scenario_entry severity) (Roadmap.graph_edges graph) g))).
  { apply (forEach_Forall2 _ _ in_unit_interval); [|exact Hg].
    intros [[u v] data] g' Hg'. split; [|by apply scenario_entry_unit].
    destruct (scenario_entry_scores severity u v data g' Hg') as [Hlt Hge].
    destruct (Qlt_le_dec (draws g' (pos g')) (Roadmap.base_prob severity data)) as [H|H].
    - destruct (Hlt H) as [-> Hd]. split; [reflexivity | lra].
    - by rewrite (Hge H). }
  revert H2. generalize (fst (forEach (Roadmap.scenario_entry severity)
                                (Roadmap.graph_edges graph) g)).
  generalize (Roadmap.graph_edges graph). intros l k H2.
  match type of H2 with
  | Forall2 ?R _ _ =>
      apply (omap_entries R (fun l damaged =>
               Forall (fun '(u, v, d) => 0.3 <= d < 1) damaged /\
               sublist (map (fun '(u, v, _) => (u, v)) damaged)
                       (map (fun '(u, v, _) => (u, v)) l) /\
               (length damaged <= length l)%nat) l k); [| | |exact H2]
  end.
  - repeat split; constructor.
  - intros x xs ys _ (H1 & H3 & H4). split; [exact H1|]. split.
    + cbn [map]. by constructor.
    + simpl. lia.
  - intros [[u v] data] [[u' v'] d] xs ys [[= -> ->] Hd] (H1 & H3 & H4).
    split; [by constructor|]. split.
    + cbn [map]. by constructor.
    + simpl. lia.
Qed.

Lemma generate_scenario_entries_witness :
  let graph := [(1, [(2, {| Roadmap.edge_length := 100; Roadmap.bridge := false |});
                     (3, {| Roadmap.edge_length := 50; Roadmap.bridge := true |})]);
                (2, [(3, {| Roadmap.edge_length := 70; Roadmap.bridge := false |})])]%Z in
  let g := cycle [0.7; 0.5] in
  let damaged := fst (Roadmap.generate_scenario graph 6.5 g) in
  in_unit_interval g /\
  map (fun '(u, v, _) => (u, v)) damaged = [(1, 3); (2, 3)]%Z /\
  Forall (fun '(u, v, d) => 0.3 <= d < 1) damaged.
Proof.
  intros graph g damaged.
  assert (Hg : in_unit_interval g).
  { apply cycle_in_unit. repeat constructor; lra. }
  split; [exact Hg|]. split; [reflexivity|].
  exact (proj1 (generate_scenario_entries graph 6.5 g Hg)).
Defined.

(** X14: At a severity of 0 or less [generate_scenario] damages no edge, and
    at a severity of 10 or more it damages every edge, in the order of
    the graph: the probability is not clamped, but the comparison with a
    draw from the unit interval has the effect of a clamp. *)
Theorem generate_scenario_extremes (graph : Roadmap.Graph) (severity : Q) (g : RNG) :
  in_unit_interval g ->
  (severity <= 0 -> fst (Roadmap.generate_scenario graph severity g) = []) /\
  (10 <= severity ->
     map (fun '(u, v, _) => (u, v)) (fst (Roadmap.generate_scenario graph severity g)) =
     map (fun '(u, v, _) => (u, v)) (Roadmap.graph_edges graph)).
Proof.
  intros Hg. unfold Roadmap.generate_scenario. rewrite bind_eq. cbn [fst ret].
  assert (Hprob : forall data,
            (severity <= 0 -> Roadmap.base_prob severity data <= 0) /\
            (10 <= severity -> 1 <= Roadmap.base_prob severity data)).
  { intros data. unfold Roadmap.base_prob.
    assert (E : severity / 10 == severity * 0.1) by (by field).
    destruct (Roadmap.bridge data); rewrite E; split; intros; lra. }
  assert (H2 : Forall2 (fun e o =>
                 (severity <= 0 -> o = None) /\
                 (10 <= severity -> exists d, o = Some (fst e, d)))
                 (Roadmap.graph_edges graph)
                 (fst (forEach (Roadmap.scenario_entry severity) (Roadmap.graph_edges graph) g))).
  { apply (forEach_Forall2 _ _ in_unit_interval); [|exact Hg].
    intros [[u v] data] g' Hg'. split; [|by apply scenario_entry_unit].
    destruct (scenario_entry_scores severity u v data g' Hg') as [Hlt Hge].
    destruct (Hprob data) as [Hlow Hhigh]. pose proof (Hg' (pos g')) as Hr.
    split.
    - intros Hs. apply Hge. specialize (Hlow Hs). lra.
    - intros Hs. destruct Hlt as [-> _]; [specialize (Hhigh Hs); lra|]. by eexists. }
  revert H2. generalize (fst (forEach (Roadmap.scenario_entry severity)
                                (Roadmap.graph_edges graph) g)).
  generalize (Roadmap.graph_edges graph). intros l k H2. split; intros Hs.
  - induction H2 as [|e o l k [Hnone _] _ IH]; [reflexivity|].
    rewrite (Hnone Hs). exact IH.
  - induction H2 as [|[[u v] data] o l k [_ Hsome] _ IH]; [reflexivity|].
    destruct (Hsome Hs) as [d ->]. cbn [omap list_omap map fst]. by rewrite IH.
Qed.

Lemma generate_scenario_extremes_witness :
  let graph := [(1, [(2, {| Roadmap.edge_length := 100; Roadmap.bridge := false |});
                     (3, {| Roadmap.edge_length := 50; Roadmap.bridge := true |})])]%Z in
  let g := cycle [0.7; 0.5] in
  in_unit_interval g /\ 0 <= 0 /\ 10 <= 12 /\
  fst (Roadmap.generate_scenario graph 0 g) = [] /\
  map (fun '(u, v, _) => (u, v)) (fst (Roadmap.generate_scenario graph 12 g)) =
  [(1, 2); (1, 3)]%Z.
Proof.
  intros graph g.
  assert (Hg : in_unit_interval g).
  { apply cycle_in_unit. repeat constructor; lra. }
  assert (H0 : 0 <= 0) by lra. assert (H12 : 10 <= 12) by lra.
  split; [exact Hg|]. split; [exact H0|]. split; [exact H12|].
  split.
  - exact (proj1 (generate_scenario_extremes graph 0 g Hg) H0).
  - exact (proj2 (generate_scenario_extremes graph 12 g Hg) H12).
Defined.

(** ** Moves in the routing environment *)

Lemma assoc_of_key {A} (l : list (Roadmap.Node * A)) (i : nat) (k : Roadmap.Node) :
  map fst l !! i = Some k -> is_Some (Roadmap.assoc k l).
Proof.
  revert i. induction l as [|[k' a] l IH]; intros i Hi; [discriminate|].
  cbn [Roadmap.assoc]. destruct (k =? k')%Z eqn:E; [by eexists|].
  destruct i as [|i]; simpl in Hi.
  - injection Hi as ->. rewrite Z.eqb_refl in E. discriminate.
  - by eapply IH.
Qed.

(** X15: [step] raises exactly when the current node is not in the graph or
    the action is not the index of one of its successors. *)
Theorem step_raises (env : Roadmap.Env) (action : nat) :
  Roadmap.step env action = None <->
  match Roadmap.assoc (Roadmap.current_node env) (Roadmap.graph env) with
  | None => True
  | Some succs => (length succs <= action)%nat
  end.
Proof.
  unfold Roadmap.step.
  destruct (Roadmap.assoc _ (Roadmap.graph env)) as [succs|]; cbn [mbind option_bind]; [|done].
  destruct (map fst succs !! action) as [next|] eqn:Hnext; cbn [mbind option_bind].
  - destruct (assoc_of_key succs action next Hnext) as [data ->]. cbn [mbind option_bind].
    apply lookup_lt_Some in Hnext. rewrite length_map in Hnext.
    split; [discriminate | lia].
  - apply lookup_ge_None in Hnext. rewrite length_map in Hnext. done.
Qed.

Lemma step_moves_only (env env' : Roadmap.Env) (action : nat) (reward : Q) (done : bool) :
  Roadmap.step env action = Some (reward, done, env') ->
  env' = Roadmap.move env (Roadmap.current_node env').
Proof.
  unfold Roadmap.step. intros H.
  destruct (Roadmap.assoc _ (Roadmap.graph env)) as [succs|]; [|discriminate].
  cbn [mbind option_bind] in H.
  destruct (map fst succs !! action) as [next|]; [|discriminate].
  cbn [mbind option_bind] in H.
  destruct (Roadmap.assoc next succs) as [data|]; [|discriminate].
  cbn [mbind option_bind] in H. by injection H as <- <- <-.
Qed.

(** X16: A walk changes nothing of the environment but the current node, so
    [reset] after any walk gives what [reset] gave before it; and a walk
    along two lists of actions is the walk along the first followed by
    the walk along the second. *)
Theorem walk_then_reset (env env' : Roadmap.Env) (actions : list nat) :
  walk env actions = Some env' ->
  env' = Roadmap.move env (Roadmap.current_node env') /\
  Roadmap.reset env' = Roadmap.reset env /\
  (forall more, walk env (actions ++ more) = walk env' more).
Proof.
  revert env. induction actions as [|a actions IH]; intros env; cbn [walk].
  - intros [= <-]. by destruct env.
  - destruct (Roadmap.step env a) as [[[reward done] env1]|] eqn:Hstep; [|discriminate].
    intros Hwalk. destruct (IH env1 Hwalk) as (Hmove & Hreset & Happ).
    pose proof (step_moves_only _ _ _ _ _ Hstep) as Hmoved.
    split; [|split].
    + rewrite Hmove, Hmoved. reflexivity.
    + rewrite Hreset, Hmoved. reflexivity.
    + intros more. cbn [app walk]. rewrite Hstep. apply Happ.
Qed.

Lemma walk_then_reset_witness :
  let env :=
    {| Roadmap.graph :=
         [(1, [(2, {| Roadmap.edge_length := 100; Roadmap.bridge := false |})]);
          (2, [(1, {| Roadmap.edge_length := 100; Roadmap.bridge := false |});
               (3, {| Roadmap.edge_length := 40; Roadmap.bridge := true |})]);
          (3, [])]%Z;
       Roadmap.damage_scores := {[ (2, 3)%Z := 0.5 ]};
       Roadmap.start := 1%Z; Roadmap.goal := 3%Z; Roadmap.urgency := 0.8;
       Roadmap.current_node := 1%Z |} in
  exists env',
    walk env [0; 0; 0; 1]%nat = Some env' /\
    Roadmap.current_node env' = 3%Z /\
    env' = Roadmap.move env (Roadmap.current_node env') /\
    Roadmap.reset env' = Roadmap.reset env.
Proof.
  intros env.
  destruct (walk env [0; 0; 0; 1]%nat) as [env'|] eqn:Hwalk;
    [|vm_compute in Hwalk; discriminate Hwalk].
  exists env'. split; [reflexivity|].
  split; [vm_compute in Hwalk; injection Hwalk as <-; reflexivity|].
  destruct (walk_then_reset env env' [0; 0; 0; 1]%nat Hwalk) as (H1 & H2 & _).
  split; [exact H1 | exact H2].
Defined.

Lemma move_reward_bound (L d : Q) :
  0 <= L -> 0 <= d ->
  Roadmap.move_reward L d <= - (L / 50 + 10 * d) /\ Roadmap.move_reward L d <= 0.
Proof.
  intros HL HD. unfold Roadmap.move_reward, Roadmap.actual_time, Roadmap.base_time.
  assert (E : L / 50 == L * 0.02) by (by field).
  assert (0 <= L * d) by (by apply Qmult_le_0_compat).
  split; rewrite !E; nra.
Qed.

(** X17: When no length and no damage score is negative, the reward of a move
    that does not reach the goal is at most the opposite of the travel
    time without damage plus ten times the damage, hence never positive;
    a move that reaches the goal earns at most [urgency * 50]. *)
Theorem step_reward_bound (env env' : Roadmap.Env) (action : nat) (reward : Q) (done : bool) :
  (forall u succs v data,
     Roadmap.assoc u (Roadmap.graph env) = Some succs ->
     Roadmap.assoc v succs = Some data -> 0 <= Roadmap.edge_length data) ->
  (forall k d, Roadmap.damage_scores env !! k = Some d -> 0 <= d) ->
  Roadmap.step env action = Some (reward, done, env') ->
  exists data,
    (Roadmap.assoc (Roadmap.current_node env) (Roadmap.graph env)
       ≫= Roadmap.assoc (Roadmap.current_node env')) = Some data /\
    let edge_damage :=
      default 0 (Roadmap.damage_scores env
                   !! (Roadmap.current_node env, Roadmap.current_node env')) in
    reward <= - (Roadmap.edge_length data / 50 + 10 * edge_damage)
              + (if done then Roadmap.urgency env * 50 else 0) /\
    reward <= (if done then Roadmap.urgency env * 50 else 0).
Proof.
  intros Hlen Hdmg. unfold Roadmap.step. intros H.
  destruct (Roadmap.assoc _ (Roadmap.graph env)) as [succs|] eqn:Hsuccs; [|discriminate].
  cbn [mbind option_bind] in H.
  destruct (map fst succs !! action) as [next|]; [|discriminate].
  cbn [mbind option_bind] in H.
  destruct (Roadmap.assoc next succs) as [data|] eqn:Hdata; [|discriminate].
  cbn [mbind option_bind] in H. injection H as <- <- <-.
  exists data. cbn [Roadmap.move Roadmap.current_node mbind option_bind].
  split; [exact Hdata|]. cbn zeta.
  pose proof (Hlen _ _ _ _ Hsuccs Hdata) as HL.
  assert (HD : 0 <= default 0 (Roadmap.damage_scores env !! (Roadmap.current_node env, next))).
  { destruct (_ !! _) as [d|] eqn:Hd; cbn; [by eapply Hdmg | lra]. }
  destruct (move_reward_bound _ _ HL HD) as [H1 H2].
  destruct (next =? Roadmap.goal env)%Z; split.
  - apply Qplus_le_compat; [exact H1 | apply Qle_refl].
  - rewrite <- (Qplus_0_l (Roadmap.urgency env * 50)) at 2.
    apply Qplus_le_compat; [exact H2 | apply Qle_refl].
  - rewrite Qplus_0_r. exact H1.
  - exact H2.
Qed.

Lemma step_reward_bound_witness :
  let env :=
    {| Roadmap.graph :=
         [(1, [(2, {| Roadmap.edge_length := 100; Roadmap.bridge := false |})]); (2, [])]%Z;
       Roadmap.damage_scores := {[ (1, 2)%Z := 0.5 ]};
       Roadmap.start := 1%Z; Roadmap.goal := 3%Z; Roadmap.urgency := 0.8;
       Roadmap.current_node := 1%Z |} in
  exists reward env',
    Roadmap.step env 0 = Some (reward, false, env') /\
    reward == -9 /\ reward <= 0.
Proof.
  intros env.
  destruct (Roadmap.step env 0) as [[[reward done] env']|] eqn:Hstep;
    [|vm_compute in Hstep; discriminate Hstep].
  assert (Hdone : done = false) by (vm_compute in Hstep; congruence).
  subst done.
  assert (Hlen : forall u succs v data,
            Roadmap.assoc u (Roadmap.graph env) = Some succs ->
            Roadmap.assoc v succs = Some data -> 0 <= Roadmap.edge_length data).
  { intros u succs v data Hu Hv. cbn in Hu.
    destruct (u =? 1)%Z; [injection Hu as <-|destruct (u =? 2)%Z; [injection Hu as <-|discriminate]].
    - cbn in Hv. destruct (v =? 2)%Z; [injection Hv as <-; discriminate | discriminate].
    - discriminate. }
  assert (Hdmg : forall k d, Roadmap.damage_scores env !! k = Some d -> 0 <= d).
  { intros k d Hk. cbn [Roadmap.damage_scores env] in Hk.
    apply lookup_singleton_Some in Hk as [_ <-]. discriminate. }
  destruct (step_reward_bound env env' 0 reward false Hlen Hdmg Hstep) as (data & _ & _ & Hle).
  exists reward, env'. split; [reflexivity|].
  split; [vm_compute in Hstep; injection Hstep as <- _; reflexivity | exact Hle].
Defined.

(** ** The demo route stays near the straight line *)


